(** * ToonVocab: the Article Word Picker of [App.tsx]

    A shallow embedding of [ArticlePickerView] (tokenizer, phrase set,
    selection, adjacency scanner, definition cache, export) and the
    properties its design document states about it. *)

From Stdlib Require Import NArith Ascii String Lia.
From stdpp Require Import gmap list sorting.

Set Default Proof Using "Type".

(** ** JavaScript strings

    A JS string is a sequence of UTF-16 code units; a code unit is kept as
    an [N]. *)

Definition code_unit := N.
Definition str := list code_unit.

(** A literal of the source, given by its ASCII spelling. *)
Definition lit (s : string) : str :=
  (λ c, N_of_ascii c) <$> list_ascii_of_string s.

Definition in_range (lo hi c : N) : bool := ((lo <=? c) && (c <=? hi))%N.

(** [/[a-zA-Z]/] *)
Definition is_ascii_letter (c : code_unit) : bool :=
  in_range 97 122 c || in_range 65 90 c.

(** [\n] *)
Definition is_newline (c : code_unit) : bool := (c =? 10)%N.

(** [\s]: WhiteSpace and LineTerminator of ECMAScript; the same code units
    are removed by [String.prototype.trim]. *)
Definition is_space (c : code_unit) : bool :=
  in_range 9 13 c || (c =? 32)%N || (c =? 160)%N || (c =? 5760)%N
  || in_range 8192 8202 c || (c =? 8232)%N || (c =? 8233)%N
  || (c =? 8239)%N || (c =? 8287)%N || (c =? 12288)%N || (c =? 65279)%N.

(** The bracketed class of the separator of [tokenize], its members in the
    order of the source: . , ! ? ; : the two quotes, ( ) [ ] { } then the
    code units U+201A U+00C4 U+00EE U+201A U+00C4 U+00EC that the file holds
    between the braces and the hyphen, and the hyphen. *)
Definition punctuation : list code_unit :=
  [46; 44; 33; 63; 59; 58; 39; 34; 40; 41; 91; 93; 123; 125;
   8218; 196; 238; 8218; 196; 236; 45]%N.

Definition is_punct (c : code_unit) : bool := bool_decide (c ∈ punctuation).

(** ** [String.prototype.split] with the separator of [tokenize] *)

(** The longest prefix of [s] whose code units satisfy [p], and the rest:
    a greedy [[...]+] once the first code unit is known to match. *)
Fixpoint span (p : code_unit → bool) (s : str) : str * str :=
  match s with
  | [] => ([], [])
  | c :: s' =>
      if p c then let '(run, rest) := span p s' in (c :: run, rest)
      else ([], s)
  end.

(** One attempt of the separator [(\n|\s+|[...]+)] at the start of [s]: the
    matched text (the capture) and what follows it.  The alternatives are
    tried from left to right, so a newline is matched alone by the first
    one, and the first code unit decides which alternative applies. *)
Definition match_separator (s : str) : option (str * str) :=
  match s with
  | [] => None
  | c :: s' =>
      if is_newline c then Some ([c], s')
      else if is_space c then Some (span is_space s)
      else if is_punct c then Some (span is_punct s)
      else None
  end.

(** The loop of [split]: [cur] is the piece collected since the end of the
    last match, [s] the text still to scan.  A match closes the piece and
    emits the capture; otherwise the scan moves one code unit on.  [fuel]
    bounds the number of iterations; [length s] of them are enough, and the
    loop emits nothing when it is cut short. *)
Fixpoint split_loop (fuel : nat) (cur s : str) : list str :=
  match s with
  | [] => [cur]
  | c :: s' =>
      match fuel with
      | 0 => []
      | S fuel' =>
          match match_separator s with
          | Some (m, rest) => cur :: m :: split_loop fuel' [] rest
          | None => split_loop fuel' (cur ++ [c]) s'
          end
      end
  end.

Definition split (text : str) : list str := split_loop (length text) [] text.

(** ** Tokens *)

Record TokenInfo := {
  text : str;
  index : nat;
  isWord : bool;
  isNewline : bool
}.

Global Instance TokenInfo_eq_dec : EqDecision TokenInfo.
Proof. solve_decision. Defined.

(** [Boolean] on a string: the empty string alone is falsy. *)
Definition truthy (s : str) : bool := negb (bool_decide (s = [])).

Definition mkToken (index : nat) (token : str) : TokenInfo :=
  {| text := token;
     index := index;
     isWord := existsb is_ascii_letter token;
     isNewline := bool_decide (token = [10%N]) |}.

Definition tokenize (text : str) : list TokenInfo :=
  let rawTokens := filter truthy (split text) in
  imap mkToken rawTokens.

(** [word.toLowerCase()], one code unit at a time.  Outside ASCII only the
    two code units whose lower case contains an ASCII letter are spelled
    out (U+212A KELVIN SIGN, and U+0130 whose lower case is [i] followed by
    U+0307); the lower case of every other code unit has no ASCII letter,
    and [normalizeWord] deletes it whatever it is. *)
Definition lower_unit (c : code_unit) : str :=
  if in_range 65 90 c then [(c + 32)%N]
  else if (c =? 8490)%N then [107%N]
  else if (c =? 304)%N then [105; 775]%N
  else [c].

Definition toLowerCase (s : str) : str := s ≫= lower_unit.

(** [word.toLowerCase().replace(/[^a-zA-Z]/g, '')] *)
Definition normalizeWord (word : str) : str :=
  filter is_ascii_letter (toLowerCase word).

(** [articleText.trim()] *)
Definition trim_start (s : str) : str := (span is_space s).2.
Definition trim (s : str) : str := reverse (trim_start (reverse (trim_start s))).


(** ** [Set] and [Array.prototype.sort]

    A JS [Set] keeps its elements in insertion order, each once: a list
    without repetition, [add] appending at the end. *)

Section JSSet.
Context {A : Type} `{EqDecision A}.

Definition set_has (x : A) (s : list A) : bool := bool_decide (x ∈ s).

Definition set_add (x : A) (s : list A) : list A :=
  if bool_decide (x ∈ s) then s else s ++ [x].

Definition set_delete (x : A) (s : list A) : list A :=
  filter (λ y, y ≠ x) s.

(** [new Set(array)] *)
Definition set_of_array (l : list A) : list A :=
  foldl (λ s x, set_add x s) [] l.
End JSSet.

(** [sort] places [x] before the first element it does not exceed; [leb]
    is the order the comparator defines. *)
Section Sort.
Context {A : Type} (leb : A → A → bool).

Fixpoint insert_sorted (x : A) (l : list A) : list A :=
  match l with
  | [] => [x]
  | y :: l' => if leb x y then x :: l else y :: insert_sorted x l'
  end.

Definition array_sort (l : list A) : list A := foldr insert_sorted [] l.
End Sort.

(** The comparator [(a, b) => a - b] on token indices. *)
Definition sort_indices : list nat → list nat := array_sort Nat.leb.

(** The default comparator of [sort]: strings by their code units. *)
Fixpoint str_leb (s t : str) : bool :=
  match s, t with
  | [], _ => true
  | _ :: _, [] => false
  | a :: s', b :: t' =>
      if (a <? b)%N then true else if (b <? a)%N then false else str_leb s' t'
  end.

Definition sort_strings : list str → list str := array_sort str_leb.

(** [array.join(sep)] *)
Fixpoint join (sep : str) (l : list str) : str :=
  match l with
  | [] => []
  | [s] => s
  | s :: l' => s ++ sep ++ join sep l'
  end.

(** ** The state of [ArticlePickerView] *)

Inductive Mode := input | picking.

Global Instance Mode_eq_dec : EqDecision Mode.
Proof. solve_decision. Defined.

(** A phrase is an array object of token indices.  [handleMerge] and
    [handleWordClick] compare phrases with [!==], by reference: [pid] is the
    identity of the array object, [members] its content. *)
Record Phrase := { pid : nat; members : list nat }.

Global Instance Phrase_eq_dec : EqDecision Phrase.
Proof. solve_decision. Defined.

Record WordMeaning := {
  word : str;
  phonetic : option str;
  definitions : list str;
  loading : bool;
  error : option str
}.

Record Picker := {
  articleText : str;
  mode : Mode;
  tokens : list TokenInfo;
  selectedIndices : list nat;
  phrases : list Phrase;
  hoveredConnector : option nat;
  wordMeanings : gmap str WordMeaning;
  (** identity of the next array object that [handleMerge] allocates *)
  nextRef : nat
}.

(** The state on mount: the initial values of the [useState] calls. *)
Definition mounted : Picker :=
  {| articleText := []; mode := input; tokens := []; selectedIndices := [];
     phrases := []; hoveredConnector := None; wordMeanings := ∅;
     nextRef := 0 |}.

(** ** Phrase set *)

Definition getPhraseForIndex (phrases : list Phrase) (index : nat)
  : option Phrase :=
  List.find (λ phrase, bool_decide (index ∈ members phrase)) phrases.

(** [p !== q] where [q] is a phrase or [null]. *)
Definition differs (p : Phrase) (q : option Phrase) : bool :=
  match q with
  | Some q => negb (pid p =? pid q)
  | None => true
  end.

Definition getPhraseText (tokens : list TokenInfo) (phraseIndices : list nat)
  : str :=
  join (lit " ") ((λ i, from_option text [] (tokens !! i)) <$> phraseIndices).

Definition handleMerge (st : Picker) (index1 index2 : nat) : Picker :=
  let phrase1 := getPhraseForIndex (phrases st) index1 in
  let phrase2 := getPhraseForIndex (phrases st) index2 in
  let newPhrases :=
    filter (λ p, differs p phrase1 && differs p phrase2) (phrases st) in
  let newPhrase :=
    match phrase1, phrase2 with
    | Some phrase1, Some phrase2 =>
        sort_indices (members phrase1 ++ members phrase2)
    | Some phrase1, None => sort_indices (members phrase1 ++ [index2])
    | None, Some phrase2 => sort_indices (index1 :: members phrase2)
    | None, None => sort_indices [index1; index2]
    end in
  {| articleText := articleText st; mode := mode st; tokens := tokens st;
     selectedIndices := selectedIndices st;
     phrases := newPhrases ++ [{| pid := nextRef st; members := newPhrase |}];
     hoveredConnector := None;
     wordMeanings := wordMeanings st;
     nextRef := S (nextRef st) |}.

(** ** Selection *)

Definition handleWordClick (st : Picker) (tokenIndex : nat) : Picker :=
  match tokens st !! tokenIndex with
  | None => st
  | Some token =>
      if negb (isWord token) then st
      else
        match getPhraseForIndex (phrases st) tokenIndex with
        | Some phrase =>
            {| articleText := articleText st; mode := mode st;
               tokens := tokens st;
               selectedIndices :=
                 foldl (λ newSet i, set_delete i newSet) (selectedIndices st)
                       (members phrase);
               phrases :=
                 filter (λ p, differs p (Some phrase)) (phrases st);
               hoveredConnector := hoveredConnector st;
               wordMeanings := wordMeanings st;
               nextRef := nextRef st |}
        | None =>
            {| articleText := articleText st; mode := mode st;
               tokens := tokens st;
               selectedIndices :=
                 if set_has tokenIndex (selectedIndices st)
                 then set_delete tokenIndex (selectedIndices st)
                 else set_add tokenIndex (selectedIndices st);
               phrases := phrases st;
               hoveredConnector := hoveredConnector st;
               wordMeanings := wordMeanings st;
               nextRef := nextRef st |}
        end
  end.

(** ** Adjacency scanner *)

(** [currentPhrase !== nextPhrase] for two phrases found. *)
Definition same_phrase (p q : Phrase) : bool := pid p =? pid q.

(** The body of the [for] loop at [i]. *)
Definition adjacent_at (st : Picker) (wordTokens : list TokenInfo) (i : nat)
  : list (nat * nat) :=
  match wordTokens !! i, wordTokens !! (i + 1) with
  | Some current, Some next =>
      if set_has (index current) (selectedIndices st)
         && set_has (index next) (selectedIndices st)
      then
        match getPhraseForIndex (phrases st) (index current),
              getPhraseForIndex (phrases st) (index next) with
        | Some currentPhrase, Some nextPhrase =>
            if same_phrase currentPhrase nextPhrase then []
            else [(index current, index next)]
        | _, _ => [(index current, index next)]
        end
      else []
  | _, _ => []
  end.

Definition findAdjacentPairs (st : Picker) : list (nat * nat) :=
  let wordTokens := filter isWord (tokens st) in
  seq 0 (length wordTokens - 1) ≫= adjacent_at st wordTokens.

(** [adjacentPairs] of the render. *)
Definition adjacentPairs (st : Picker) : list (nat * nat) :=
  match mode st with
  | picking => findAdjacentPairs st
  | input => []
  end.

(** ** Definition cache *)

Abbreviation Cache := (gmap str WordMeaning).

Definition loading_record (normalized : str) : WordMeaning :=
  {| word := normalized; phonetic := None; definitions := [];
     loading := true; error := None |}.

(** What one call of [fetchMeaning] does before its first [await], given
    the [wordMeanings] of the render the call belongs to: [None] when it
    returns at once, [Some normalized] when it enqueues the update that
    stores the loading record and calls [fetch] for [normalized]. *)
Definition fetchMeaning (wordMeanings : Cache) (word : str) : option str :=
  let normalized := normalizeWord word in
  if negb (truthy normalized) || bool_decide (is_Some (wordMeanings !! normalized))
  then None
  else Some normalized.

(** The updater [prev => new Map(prev).set(normalized, record)]. *)
Definition setMeaning (normalized : str) (record : WordMeaning) (st : Picker)
  : Picker :=
  {| articleText := articleText st; mode := mode st; tokens := tokens st;
     selectedIndices := selectedIndices st; phrases := phrases st;
     hoveredConnector := hoveredConnector st;
     wordMeanings := <[normalized := record]> (wordMeanings st);
     nextRef := nextRef st |}.

(** One call of [fetchMeaning] from the render of [st], with the update it
    enqueues committed: the state of the next render and the requests sent
    to the dictionary service.  A call made after this one from that next
    render reads the new [wordMeanings]; a call made after it from the same
    render still reads the [wordMeanings] of [st] (see [callFetchMeanings]). *)
Definition callFetchMeaning (st : Picker) (word : str) : Picker * list str :=
  match fetchMeaning (wordMeanings st) word with
  | None => (st, [])
  | Some normalized =>
      (setMeaning normalized (loading_record normalized) st, [normalized])
  end.

(** The definitions kept from a response: [meanings] holds, per meaning,
    the [definition] field of each of its entries. *)
Definition collectDefinitions (meanings : list (list str)) : list str :=
  take 3 (meanings ≫= (λ m, filter truthy (take 2 m))).

(** The two ways a request ends. *)
Definition fetchResolved (normalized : str) (phon : option str)
    (meanings : list (list str)) (st : Picker) : Picker :=
  setMeaning normalized
    {| word := normalized; phonetic := phon;
       definitions := collectDefinitions meanings;
       loading := false; error := None |} st.

Definition fetchFailed (normalized : str) (st : Picker) : Picker :=
  setMeaning normalized
    {| word := normalized; phonetic := None; definitions := [];
       loading := false; error := Some (lit "No definition found") |} st.

(** ** Entering and leaving the picking mode *)

Inductive Effect := alert (message : str).

Definition handleStartPicking (st : Picker) : Picker * list Effect :=
  if negb (truthy (trim (articleText st))) then
    (st, [alert (lit "Please paste an article first!")])
  else
    ({| articleText := articleText st; mode := picking;
        tokens := tokenize (articleText st);
        selectedIndices := []; phrases := []; 
        hoveredConnector := hoveredConnector st;
        wordMeanings := ∅; nextRef := nextRef st |}, []).

Definition handleReset (st : Picker) : Picker :=
  {| articleText := articleText st; mode := input; tokens := [];
     selectedIndices := []; phrases := [];
     hoveredConnector := hoveredConnector st;
     wordMeanings := ∅; nextRef := nextRef st |}.

(** [onChange] of the text area. *)
Definition setArticleText (value : str) (st : Picker) : Picker :=
  {| articleText := value; mode := mode st; tokens := tokens st;
     selectedIndices := selectedIndices st; phrases := phrases st;
     hoveredConnector := hoveredConnector st;
     wordMeanings := wordMeanings st; nextRef := nextRef st |}.

(** ** Export *)

Record ExportDocument := {
  exportedAt : str;
  words : list str;
  exported_phrases : list str
}.

(** The loop over [selectedIndices] that fills [singleWords];
    [tokens[idx].text] throws when there is no token at [idx], which is
    [None] here. *)
Definition collectSingleWords (st : Picker) : option (list str) :=
  mapM (λ idx, t ← tokens st !! idx; Some (normalizeWord (text t)))
       (filter (λ idx, bool_decide (getPhraseForIndex (phrases st) idx = None))
                    (selectedIndices st)).

(** [handleExportJson] up to the serialization of [exportData]; [now] is
    [new Date().toISOString()]. *)
Definition handleExportJson (now : str) (st : Picker) : option ExportDocument :=
  singleWords ← collectSingleWords st;
  let phraseTexts := (λ p, getPhraseText (tokens st) (members p)) <$> phrases st in
  Some {| exportedAt := now;
          words := sort_strings (set_of_array singleWords);
          exported_phrases := phraseTexts |}.

(** [getSelectedWords], the [selectedItems] of the floating panel. *)
Definition getSelectedWords (st : Picker) : option (list str) :=
  set_of_array <$> collectSingleWords st.

(** ** The floating panel's effect *)

(** One step of [selectedItems.forEach] in the effect of
    [FloatingMeaningPanel] that fetches the meanings of new words.
    [captured] is the [wordMeanings] of the render the effect belongs to:
    the panel's [meanings] and the map that [fetchMeaning] reads are both
    this one, whatever the calls before it in the same pass have enqueued.
    The accumulator holds the state with the updates enqueued so far and
    the requests sent so far. *)
Definition panelStep (captured : Cache) (acc : Picker * list str) (word : str)
  : Picker * list str :=
  if bool_decide (is_Some (captured !! word)) then acc
  else
    match fetchMeaning captured word with
    | None => acc
    | Some normalized =>
        (setMeaning normalized (loading_record normalized) acc.1,
         acc.2 ++ [normalized])
    end.

(** The effect after a render of [st], with its updates committed. *)
Definition panelEffect (st : Picker) : option (Picker * list str) :=
  selectedItems ← getSelectedWords st;
  Some (foldl (panelStep (wordMeanings st)) (st, []) selectedItems).

(** ** What the floating panel shows *)

(** [getPhraseTexts], the [phrases] of the floating panel. *)
Definition getPhraseTexts (st : Picker) : list str :=
  (λ p, getPhraseText (tokens st) (members p)) <$> phrases st.

(** Whether [FloatingMeaningPanel] renders anything: it returns [null] when
    [allItems], the selected words followed by the phrases, is empty. *)
Definition panelShown (st : Picker) : option bool :=
  selectedItems ← getSelectedWords st;
  let allItems := selectedItems ++ getPhraseTexts st in
  Some (negb (length allItems =? 0)).

(** ** The picker as a transition system *)

(** What a user, or any caller of the handlers, can do. *)
Inductive Op :=
| OpText (value : str)
| OpStart
| OpClick (tokenIndex : nat)
| OpMerge (index1 index2 : nat)
| OpReset.

Definition apply_op (st : Picker) (op : Op) : Picker :=
  match op with
  | OpText value => setArticleText value st
  | OpStart => (handleStartPicking st).1
  | OpClick tokenIndex => handleWordClick st tokenIndex
  | OpMerge index1 index2 => handleMerge st index1 index2
  | OpReset => handleReset st
  end.

(** The operations the rendered view offers: the connector button between
    two tokens exists only for a pair of [adjacentPairs], and calls
    [handleMerge] with that pair. *)
Definition offered (st : Picker) (op : Op) : Prop :=
  match op with
  | OpMerge index1 index2 => (index1, index2) ∈ adjacentPairs st
  | _ => True
  end.

(** States reached from [mounted] by calling the handlers in any way. *)
Inductive reachable : Picker → Prop :=
| reachable_mounted : reachable mounted
| reachable_step st op : reachable st → reachable (apply_op st op).

(** States reached from [mounted] through the view. *)
Inductive ui_reachable : Picker → Prop :=
| ui_mounted : ui_reachable mounted
| ui_step st op : ui_reachable st → offered st op → ui_reachable (apply_op st op).

(** The picking state of a pasted article, before any click. *)
Definition start_picking (article : str) : Picker :=
  (handleStartPicking (setArticleText article mounted)).1.

(** Calls of [fetchMeaning] in a row from one render of [st]: every call
    reads the [wordMeanings] of that render, whatever the calls before it
    have enqueued, and the enqueued updates are applied in the order of the
    calls when React commits them.  The state after the commit and all the
    requests sent. *)
Definition callFetchMeanings (st : Picker) (ws : list str) : Picker * list str :=
  foldl (λ acc word,
           match fetchMeaning (wordMeanings st) word with
           | None => acc
           | Some normalized =>
               (setMeaning normalized (loading_record normalized) acc.1,
                acc.2 ++ [normalized])
           end)
        (st, []) ws.

(** The article of the design document's scenarios, with [fast] (token 0)
    and [and] (token 2) selected and merged. *)
Definition fast_and_selected : Picker :=
  handleWordClick
    (handleWordClick (start_picking (lit "fast and furious driving")) 0) 2.

Definition fast_and : Picker := handleMerge fast_and_selected 0 2.

(** All four words selected, and merged two by two. *)
Definition two_phrases : Picker :=
  handleMerge
    (handleMerge (handleWordClick (handleWordClick fast_and_selected 4) 6) 0 2)
    4 6.

(** ** The export document as the design describes it *)

(** The strict lexicographic order of strings, code unit by code unit. *)
Inductive lex_lt : str → str → Prop :=
| lex_lt_nil c t : lex_lt [] (c :: t)
| lex_lt_head a b s t : (a < b)%N → lex_lt (a :: s) (b :: t)
| lex_lt_tail a s t : lex_lt s t → lex_lt (a :: s) (a :: t).

(** A selected position that no phrase covers. *)
Definition single_word_position (st : Picker) (idx : nat) : Prop :=
  idx ∈ selectedIndices st ∧ ∀ p, p ∈ phrases st → idx ∉ members p.

(** [ws] is the sorted list, without repetition, of the normalized texts of
    the tokens at the selected positions that no phrase covers. *)
Definition is_words_of (st : Picker) (ws : list str) : Prop :=
  StronglySorted lex_lt ws ∧
  ∀ w, w ∈ ws ↔
       ∃ idx t, single_word_position st idx ∧ tokens st !! idx = Some t ∧
                w = normalizeWord (text t).

(** ** The adjacency scanner as the design describes it *)

(** The tokens at [a] and [b] are neighbours in the sequence of the word
    tokens: both are word tokens, [a] comes first, and none of the tokens
    between them is a word token. *)
Definition consecutive_words (tokens : list TokenInfo) (a b : nat) : Prop :=
  a < b
  ∧ (∃ ta, tokens !! a = Some ta ∧ isWord ta = true)
  ∧ (∃ tb, tokens !! b = Some tb ∧ isWord tb = true)
  ∧ ∀ k t, a < k < b → tokens !! k = Some t → isWord t = false.

(** [fast] (token 0) and [furious] (token 4) selected, [and] not. *)
Definition fast_furious : Picker :=
  handleWordClick
    (handleWordClick (start_picking (lit "fast and furious driving")) 0) 4.

(** The fields that [getSelectedWords] reads. *)
Definition same_view (a b : Picker) : Prop :=
  tokens a = tokens b ∧ selectedIndices a = selectedIndices b
  ∧ phrases a = phrases b.

(** ** The shape of the token sequence *)

(** A code unit that one of the three alternatives of the separator of
    [tokenize] matches. *)
Definition is_separator (c : code_unit) : bool := is_space c || is_punct c.

(** What one match of the separator can be: a newline alone, a run of white
    space that does not begin with a newline, or a run of punctuation. *)
Definition separator_text (m : str) : Prop :=
  m = [10%N]
  ∨ (∃ c m', m = c :: m' ∧ is_newline c = false
             ∧ Forall (λ c, is_space c = true) m)
  ∨ (m ≠ [] ∧ Forall (λ c, is_punct c = true) m).

(** A piece between two matches: no code unit of it is a separator. *)
Definition piece_text (s : str) : Prop :=
  Forall (λ c, is_separator c = false) s.

(** The array that [split] returns: pieces and matches in turn, beginning
    and ending with a piece (possibly empty). *)
Inductive split_shape : list str → Prop :=
| split_shape_last cur : piece_text cur → split_shape [cur]
| split_shape_match cur m l :
    piece_text cur → separator_text m → split_shape l →
    split_shape (cur :: m :: l).

(** Of two neighbours in a list at least one is a separator match. *)
Fixpoint separated (l : list str) : Prop :=
  match l with
  | x :: (y :: _) as l' => (separator_text x ∨ separator_text y) ∧ separated l'
  | _ => True
  end.

(** ** Properties of states *)

(** No token position is in two phrases. *)
Definition phrases_disjoint (ps : list Phrase) : Prop :=
  ∀ i j p q x, ps !! i = Some p → ps !! j = Some q → i ≠ j →
    x ∈ members p → x ∉ members q.

(** The array objects in [phrases] are distinct, and older than the next
    allocation. *)
Definition refs_fresh (st : Picker) : Prop :=
  NoDup (pid <$> phrases st) ∧ Forall (λ p, pid p < nextRef st) (phrases st).

(** Every member of a phrase is selected. *)
Definition phrases_selected (st : Picker) : Prop :=
  ∀ p x, p ∈ phrases st → x ∈ members p → x ∈ selectedIndices st.

(** [tokens] is numbered by position, as [tokenize] numbers it. *)
Definition tokens_numbered (tokens : list TokenInfo) : Prop :=
  ∀ i t, tokens !! i = Some t → index t = i.

(** Every selected position is the position of a word token. *)
Definition selection_words (st : Picker) : Prop :=
  ∀ x, x ∈ selectedIndices st →
    ∃ t, tokens st !! x = Some t ∧ isWord t = true.

(** The two positions are found in one and the same array object. *)
Definition co_phrased (st : Picker) (a b : nat) : Prop :=
  ∃ p q, getPhraseForIndex (phrases st) a = Some p ∧
         getPhraseForIndex (phrases st) b = Some q ∧ pid p = pid q.

(** [tokens] is the token sequence of some text. *)
Definition tokens_tokenized (st : Picker) : Prop :=
  ∃ article, tokens st = tokenize article.

(** ** The connector buttons of the view *)

(** [index > i1 && index < i2] *)
Definition between (index : nat) (pair : nat * nat) : bool :=
  (pair.1 <? index) && (index <? pair.2).

(** What the view renders for the token at [index]: the pair that the
    connector button there passes to [handleMerge], or [None] when there is
    no button (a newline token is rendered as a line break, a word token as a
    clickable word, and any other token gets the button only between the two
    positions of a reported pair). *)
Definition connectorAt (st : Picker) (index : nat) : option (nat * nat) :=
  match tokens st !! index with
  | None => None
  | Some token =>
      if isNewline token then None
      else if negb (isWord token) then
        let isConnectorPosition := existsb (between index) (adjacentPairs st) in
        if isConnectorPosition && (0 <? length (selectedIndices st))
        then find (between index) (adjacentPairs st)
        else None
      else None
  end.

(** Some phrase holds the position. *)
Definition covered (st : Picker) (x : nat) : Prop :=
  ∃ p, p ∈ phrases st ∧ x ∈ members p.

(** Every phrase has at least two members, in strictly ascending order. *)
Definition phrases_ascending (st : Picker) : Prop :=
  ∀ p, p ∈ phrases st →
       StronglySorted lt (members p) ∧ 2 ≤ length (members p).

(** * Proofs *)

(** ** Tokenizer *)

Lemma span_app p s : (span p s).1 ++ (span p s).2 = s.
Proof.
  induction s as [|c s IH]; simpl; [done|].
  destruct (p c); [|done].
  destruct (span p s) as [run rest]; simpl in *. by rewrite IH.
Qed.

Lemma span_rest_length p s : length (span p s).2 ≤ length s.
Proof.
  induction s as [|c s IH]; simpl; [lia|].
  destruct (p c); simpl; [|lia].
  destruct (span p s) as [run rest]; simpl in *. lia.
Qed.

Lemma span_cons p c s :
  p c = true → span p (c :: s) = (c :: (span p s).1, (span p s).2).
Proof. intros Hc. simpl. rewrite Hc. by destruct (span p s). Qed.

(** A match is never empty, and what it leaves is shorter. *)
Lemma match_separator_Some s m rest :
  match_separator s = Some (m, rest) →
  m ++ rest = s ∧ m ≠ [] ∧ length rest < length s.
Proof.
  destruct s as [|c s]; [done|]. unfold match_separator.
  destruct (is_newline c) eqn:Hn.
  { intros [= <- <-]. simpl. split_and!; [done|done|lia]. }
  destruct (is_space c) eqn:Hs.
  { rewrite (span_cons _ _ _ Hs). intros [= <- <-].
    pose proof (span_app is_space s). pose proof (span_rest_length is_space s).
    simpl. split_and!; [by f_equal|done|lia]. }
  destruct (is_punct c) eqn:Hp; [|done].
  rewrite (span_cons _ _ _ Hp). intros [= <- <-].
  pose proof (span_app is_punct s). pose proof (span_rest_length is_punct s).
  simpl. split_and!; [by f_equal|done|lia].
Qed.

Lemma split_loop_concat fuel cur s :
  length s ≤ fuel → concat (split_loop fuel cur s) = cur ++ s.
Proof.
  revert cur s. induction fuel as [|fuel IH]; intros cur s Hlen.
  { destruct s; simpl in *; [by rewrite !app_nil_r|lia]. }
  destruct s as [|c s]; [by simpl; rewrite !app_nil_r|].
  cbn [split_loop].
  destruct (match_separator (c :: s)) as [[m rest]|] eqn:Hm.
  - apply match_separator_Some in Hm as (Heq & _ & Hlt).
    cbn [concat]. rewrite IH; [|simpl in *; lia].
    by rewrite <- Heq.
  - rewrite IH; [|simpl in *; lia]. by rewrite <- (assoc (++)).
Qed.

(** More fuel than the length of the text changes nothing. *)
Lemma split_loop_fuel fuel fuel' cur s :
  length s ≤ fuel → length s ≤ fuel' →
  split_loop fuel cur s = split_loop fuel' cur s.
Proof.
  revert fuel' cur s. induction fuel as [|fuel IH]; intros fuel' cur s H1 H2.
  { destruct s; simpl in *; [by destruct fuel'|lia]. }
  destruct s as [|c s]; [by destruct fuel'|].
  destruct fuel' as [|fuel']; [simpl in *; lia|].
  cbn [split_loop].
  destruct (match_separator (c :: s)) as [[m rest]|] eqn:Hm.
  - apply match_separator_Some in Hm as (_ & _ & Hlt).
    do 2 f_equal. apply IH; simpl in *; lia.
  - apply IH; simpl in *; lia.
Qed.

Lemma concat_filter_truthy (l : list str) :
  concat (filter truthy l) = concat l.
Proof.
  induction l as [|s l IH]; [done|].
  rewrite filter_cons. destruct (decide (truthy s)) as [Hs|Hs]; simpl.
  - by rewrite IH.
  - rewrite IH. unfold truthy in Hs.
    apply negb_prop_classical, bool_decide_unpack in Hs. by subst.
Qed.

Lemma text_imap_mkToken (l : list str) : text <$> imap mkToken l = l.
Proof.
  rewrite fmap_imap. rewrite (imap_ext _ (const id)); [|done].
  by rewrite imap_const, list_fmap_id.
Qed.

Lemma tokenize_numbered article : tokens_numbered (tokenize article).
Proof.
  intros i t. unfold tokenize. rewrite list_lookup_imap.
  destruct (_ !! i); [|done]. by intros [= <-].
Qed.

(** C3. Concatenating the [text] of the tokens that [tokenize] emits, in
    the order it emits them, gives back the input, whatever the input;
    [tokenize] is a total function of the text alone. *)
Theorem tokenize_roundtrip (article : str) :
  concat (text <$> tokenize article) = article.
Proof.
  unfold tokenize. rewrite text_imap_mkToken, concat_filter_truthy.
  unfold split. by rewrite split_loop_concat.
Qed.

(** ** Sorting *)

Section SortFacts.
Context {A : Type} (leb : A → A → bool).

Lemma insert_sorted_perm x l : insert_sorted leb x l ≡ₚ x :: l.
Proof.
  induction l as [|y l IH]; simpl; [done|].
  destruct (leb x y); [done|]. rewrite IH. apply Permutation_swap.
Qed.

Lemma array_sort_perm l : array_sort leb l ≡ₚ l.
Proof.
  induction l as [|x l IH]; simpl; [done|].
  by rewrite insert_sorted_perm, IH.
Qed.

Lemma elem_of_array_sort x l : x ∈ array_sort leb l ↔ x ∈ l.
Proof. by rewrite array_sort_perm. Qed.

(** With a total and transitive order the result is ascending. *)
Hypothesis leb_total : ∀ x y, leb x y = true ∨ leb y x = true.
Hypothesis leb_trans : ∀ x y z, leb x y = true → leb y z = true → leb x z = true.

Lemma insert_sorted_sorted x l :
  StronglySorted (λ a b, leb a b = true) l →
  StronglySorted (λ a b, leb a b = true) (insert_sorted leb x l).
Proof using leb_total leb_trans.
  induction 1 as [|y l Hl IH Hy]; simpl.
  { repeat constructor. }
  destruct (leb x y) eqn:Hxy.
  - constructor; [by constructor|].
    constructor; [done|]. eapply Forall_impl; [exact Hy|].
    intros z Hz. by eapply leb_trans.
  - constructor; [done|].
    rewrite insert_sorted_perm. constructor; [|done].
    destruct (leb_total x y); congruence.
Qed.

Lemma array_sort_sorted l :
  StronglySorted (λ a b, leb a b = true) (array_sort leb l).
Proof using leb_total leb_trans.
  induction l; simpl; [constructor|by apply insert_sorted_sorted].
Qed.
End SortFacts.

Lemma StronglySorted_weaken {A} (R R' : relation A) l :
  (∀ x y, R x y → R' x y) → StronglySorted R l → StronglySorted R' l.
Proof.
  intros HR. induction 1 as [|x l _ IH Hx]; constructor; [done|].
  eapply Forall_impl; [exact Hx|]. intros y. apply HR.
Qed.

Lemma sort_indices_sorted l : StronglySorted le (sort_indices l).
Proof.
  eapply StronglySorted_weaken; [|apply (array_sort_sorted Nat.leb)].
  - intros x y. apply Nat.leb_le.
  - intros x y. rewrite !Nat.leb_le. lia.
  - intros x y z. rewrite !Nat.leb_le. lia.
Qed.

Lemma elem_of_sort_indices x l : x ∈ sort_indices l ↔ x ∈ l.
Proof. apply elem_of_array_sort. Qed.

(** ** Phrase set *)

Lemma getPhraseForIndex_Some ps x p :
  getPhraseForIndex ps x = Some p → p ∈ ps ∧ x ∈ members p.
Proof.
  unfold getPhraseForIndex. intros H. apply find_some in H as [H1 H2].
  split; [by apply list_elem_of_In|by apply bool_decide_eq_true in H2].
Qed.

Lemma getPhraseForIndex_None ps x :
  getPhraseForIndex ps x = None ↔ ∀ p, p ∈ ps → x ∉ members p.
Proof.
  unfold getPhraseForIndex. split.
  - intros H p Hp Hx. apply list_elem_of_In in Hp.
    pose proof (find_none _ _ H p Hp) as Hf. simpl in Hf.
    by apply bool_decide_eq_false in Hf.
  - intros H. destruct (find _ ps) as [p|] eqn:Hf; [|done].
    apply find_some in Hf as [H1 H2]. apply list_elem_of_In in H1.
    apply bool_decide_eq_true in H2. by destruct (H p H1).
Qed.

Lemma getPhraseForIndex_is_Some ps x :
  is_Some (getPhraseForIndex ps x) ↔ ∃ p, p ∈ ps ∧ x ∈ members p.
Proof.
  split.
  - intros [p Hp]. exists p. by apply getPhraseForIndex_Some.
  - intros (p & Hp & Hx). destruct (getPhraseForIndex ps x) eqn:Hf; [done|].
    rewrite getPhraseForIndex_None in Hf. by destruct (Hf p Hp).
Qed.

Lemma phrases_disjoint_nil : phrases_disjoint [].
Proof. by intros i j p q x Hi. Qed.

Lemma phrases_disjoint_cons p ps :
  phrases_disjoint (p :: ps) ↔
  (∀ q x, q ∈ ps → x ∈ members p → x ∉ members q) ∧ phrases_disjoint ps.
Proof.
  split.
  - intros H. split.
    + intros q x [j Hj]%list_elem_of_lookup Hx.
      by apply (H 0 (S j) p q x).
    + intros i j p' q' x Hi Hj Hij. by apply (H (S i) (S j) p' q' x); [..|lia].
  - intros [Hp Hps] i j p' q' x Hi Hj Hij Hx Hx'.
    destruct i as [|i], j as [|j]; simpl in *; simplify_eq.
    + by eapply (Hp q' x); [eapply list_elem_of_lookup_2|..].
    + by eapply (Hp p' x); [eapply list_elem_of_lookup_2|..].
    + by eapply (Hps i j p' q' x); [..|lia| |].
Qed.

Lemma phrases_disjoint_elem ps p q x :
  phrases_disjoint ps → p ∈ ps → q ∈ ps → p ≠ q →
  x ∈ members p → x ∉ members q.
Proof.
  intros H [i Hi]%list_elem_of_lookup [j Hj]%list_elem_of_lookup Hpq.
  apply (H i j); [done..|]. intros ->. congruence.
Qed.

Lemma phrases_disjoint_sublist ps ps' :
  sublist ps' ps → phrases_disjoint ps → phrases_disjoint ps'.
Proof.
  induction 1 as [|p l k Hlk IH|p l k Hlk IH]; [done|..].
  - rewrite !phrases_disjoint_cons. intros [Hp Hk]. split; [|by apply IH].
    intros q x Hq. apply Hp. by eapply elem_of_sublist.
  - rewrite phrases_disjoint_cons. intros [_ Hk]. by apply IH.
Qed.

Lemma phrases_disjoint_snoc ps n :
  phrases_disjoint ps →
  (∀ q x, q ∈ ps → x ∈ members n → x ∉ members q) →
  phrases_disjoint (ps ++ [n]).
Proof.
  induction ps as [|p ps IH]; simpl; intros Hps Hn.
  { apply phrases_disjoint_cons. split; [by intros q x ?%elem_of_nil|].
    apply phrases_disjoint_nil. }
  apply phrases_disjoint_cons in Hps as [Hp Hps].
  apply phrases_disjoint_cons. split.
  - intros q x [Hq| ->%list_elem_of_singleton]%elem_of_app Hx.
    + by apply Hp.
    + intros Hx'. by apply (Hn p x); [left|..].
  - apply IH; [done|]. intros q x Hq. apply Hn. by right.
Qed.

(** A phrase that [differs] from a found one is another entry of the array. *)
Lemma differs_Some_ne p q : differs p (Some q) = true → p ≠ q.
Proof. simpl. intros H ->. by rewrite Nat.eqb_refl in H. Qed.

Lemma handleMerge_disjoint st index1 index2 :
  phrases_disjoint (phrases st) →
  phrases_disjoint (phrases (handleMerge st index1 index2)).
Proof.
  intros Hd. unfold handleMerge; cbn [phrases].
  apply phrases_disjoint_snoc.
  { eapply phrases_disjoint_sublist; [apply sublist_filter|done]. }
  intros q x [[H1 H2]%andb_prop_elim Hq]%list_elem_of_filter.
  apply Is_true_eq_true in H1, H2. cbn [members].
  destruct (getPhraseForIndex (phrases st) index1) as [p1|] eqn:E1,
           (getPhraseForIndex (phrases st) index2) as [p2|] eqn:E2;
    rewrite elem_of_sort_indices;
    repeat match goal with
    | H : getPhraseForIndex _ _ = Some _ |- _ =>
        apply getPhraseForIndex_Some in H as [? ?]
    | H : differs _ (Some _) = true |- _ => apply differs_Some_ne in H
    | H : getPhraseForIndex _ _ = None |- _ =>
        rewrite getPhraseForIndex_None in H
    end.
  - intros [Hx|Hx]%elem_of_app Hxq;
      by eapply (phrases_disjoint_elem (phrases st)); [done| | | |exact Hx|exact Hxq].
  - intros [Hx| ->%list_elem_of_singleton]%elem_of_app Hxq.
    + by eapply (phrases_disjoint_elem (phrases st)); [done| | | |exact Hx|exact Hxq].
    + by eapply E2.
  - intros [->|Hx]%elem_of_cons Hxq.
    + by eapply E1.
    + by eapply (phrases_disjoint_elem (phrases st)); [done| | | |exact Hx|exact Hxq].
  - intros [->|[->|[]%elem_of_nil]%elem_of_cons]%elem_of_cons Hxq.
    + by eapply E1.
    + by eapply E2.
Qed.

Lemma handleWordClick_phrases_sublist st tokenIndex :
  sublist (phrases (handleWordClick st tokenIndex)) (phrases st).
Proof.
  unfold handleWordClick. destruct (tokens st !! tokenIndex) as [t|]; [|done].
  destruct (isWord t); simpl; [|done].
  destruct (getPhraseForIndex _ _); simpl; [apply sublist_filter|done].
Qed.

Lemma apply_op_disjoint st op :
  phrases_disjoint (phrases st) → phrases_disjoint (phrases (apply_op st op)).
Proof.
  intros Hd. destruct op as [value| |tokenIndex|index1 index2|]; simpl.
  - done.
  - unfold handleStartPicking. destruct (negb _); simpl; [done|].
    apply phrases_disjoint_nil.
  - eapply phrases_disjoint_sublist; [apply handleWordClick_phrases_sublist|done].
  - by apply handleMerge_disjoint.
  - apply phrases_disjoint_nil.
Qed.

(** C2. In every state reached from the mounted view by the handlers
    called in any order and with any arguments (typing a text, start,
    toggle, merge, reset), and so in every state reached from a picking
    state, no token position is in two phrases. *)
Theorem reachable_phrases_disjoint (st : Picker) :
  reachable st →
  ∀ i j p q x, phrases st !! i = Some p → phrases st !! j = Some q → i ≠ j →
    x ∈ members p → x ∉ members q.
Proof.
  intros Hr. change (phrases_disjoint (phrases st)).
  induction Hr as [|st op _ IH].
  - apply phrases_disjoint_nil.
  - by apply apply_op_disjoint.
Qed.

(** ** [Set] operations *)

Section JSSetFacts.
Context {A : Type} `{EqDecision A}.
Implicit Types (x y : A) (s l : list A).

Lemma set_has_true x s : set_has x s = true ↔ x ∈ s.
Proof. apply bool_decide_eq_true. Qed.

Lemma elem_of_set_add y x s : y ∈ set_add x s ↔ y = x ∨ y ∈ s.
Proof.
  unfold set_add. case_bool_decide as Hx.
  - split; [by right|]. by intros [->|?].
  - rewrite elem_of_app, list_elem_of_singleton. tauto.
Qed.

Lemma elem_of_set_delete y x s : y ∈ set_delete x s ↔ y ∈ s ∧ y ≠ x.
Proof. unfold set_delete. rewrite list_elem_of_filter. tauto. Qed.

Lemma elem_of_delete_all y l s :
  y ∈ foldl (λ newSet i, set_delete i newSet) s l ↔ y ∈ s ∧ y ∉ l.
Proof.
  revert s. induction l as [|x l IH]; intros s; simpl.
  - rewrite elem_of_nil. tauto.
  - rewrite IH, elem_of_set_delete, not_elem_of_cons. tauto.
Qed.

Lemma set_add_NoDup x s : NoDup s → NoDup (set_add x s).
Proof.
  intros Hs. unfold set_add. case_bool_decide as Hx; [done|].
  apply NoDup_app. split_and!; [done| |apply NoDup_singleton].
  by intros y Hy ->%list_elem_of_singleton.
Qed.

Lemma set_of_array_spec l :
  NoDup (set_of_array l) ∧ ∀ x, x ∈ set_of_array l ↔ x ∈ l.
Proof.
  unfold set_of_array.
  cut (∀ s, NoDup s →
         NoDup (foldl (λ s x, set_add x s) s l) ∧
         ∀ x, x ∈ foldl (λ s x, set_add x s) s l ↔ x ∈ s ∨ x ∈ l).
  { intros H. destruct (H [] (NoDup_nil_2)) as [H1 H2]. split; [done|].
    intros x. rewrite H2, elem_of_nil. tauto. }
  induction l as [|y l IH]; intros s Hs; simpl.
  - split; [done|]. intros x. rewrite elem_of_nil. tauto.
  - destruct (IH (set_add y s) (set_add_NoDup y s Hs)) as [H1 H2].
    split; [done|]. intros x.
    rewrite H2, elem_of_set_add, elem_of_cons. tauto.
Qed.
End JSSetFacts.

(** ** The array objects stay distinct *)

Lemma refs_fresh_sublist st st' :
  sublist (phrases st') (phrases st) → nextRef st' = nextRef st →
  refs_fresh st → refs_fresh st'.
Proof.
  intros Hsub Hn [Hnd Hlt]. split.
  - eapply sublist_NoDup; [exact Hnd|by apply fmap_sublist].
  - rewrite Hn. rewrite Forall_forall in Hlt |- *.
    intros p Hp. apply Hlt. by eapply elem_of_sublist.
Qed.

Lemma handleMerge_refs_fresh st index1 index2 :
  refs_fresh st → refs_fresh (handleMerge st index1 index2).
Proof.
  intros [Hnd Hlt]. rewrite Forall_forall in Hlt.
  unfold refs_fresh, handleMerge; cbn [phrases nextRef]. split.
  - rewrite fmap_app. apply NoDup_app. split_and!.
    + eapply sublist_NoDup; [exact Hnd|apply fmap_sublist, sublist_filter].
    + intros n (p & -> & [_ Hp]%list_elem_of_filter)%list_elem_of_fmap.
      simpl. intros Hn%list_elem_of_singleton. specialize (Hlt p Hp). lia.
    + apply NoDup_singleton.
  - rewrite Forall_app, Forall_singleton; simpl. split; [|lia].
    rewrite Forall_forall. intros p [_ Hp]%list_elem_of_filter.
    specialize (Hlt p Hp). lia.
Qed.

Lemma refs_fresh_nil st : phrases st = [] → refs_fresh st.
Proof. intros H. unfold refs_fresh. rewrite H. split; constructor. Qed.

Lemma apply_op_refs_fresh st op : refs_fresh st → refs_fresh (apply_op st op).
Proof.
  intros Hf. destruct op as [value| |tokenIndex|index1 index2|]; simpl.
  - done.
  - unfold handleStartPicking. destruct (negb _); simpl; [done|].
    by apply refs_fresh_nil.
  - eapply refs_fresh_sublist; [apply handleWordClick_phrases_sublist| |done].
    unfold handleWordClick. destruct (tokens st !! tokenIndex) as [t|]; [|done].
    destruct (isWord t); simpl; [|done]. by destruct (getPhraseForIndex _ _).
  - by apply handleMerge_refs_fresh.
  - by apply refs_fresh_nil.
Qed.

Lemma reachable_refs_fresh st : reachable st → refs_fresh st.
Proof.
  induction 1 as [|st op _ IH]; [by apply refs_fresh_nil|].
  by apply apply_op_refs_fresh.
Qed.

Lemma ui_reachable_reachable st : ui_reachable st → reachable st.
Proof. induction 1; by constructor. Qed.

(** Under [refs_fresh], comparing by reference is comparing entries. *)
Lemma refs_fresh_pid_inj st p q :
  refs_fresh st → p ∈ phrases st → q ∈ phrases st → pid p = pid q → p = q.
Proof.
  intros [Hnd _] [i Hi]%list_elem_of_lookup [j Hj]%list_elem_of_lookup Hpq.
  assert (i = j) as ->; [|congruence].
  eapply NoDup_lookup; [exact Hnd|..]; rewrite list_lookup_fmap.
  - by rewrite Hi.
  - rewrite Hj. simpl. by rewrite Hpq.
Qed.

Lemma filter_ext_elem {A} (P1 P2 : A → Prop)
    `{!∀ x, Decision (P1 x), !∀ x, Decision (P2 x)} (l : list A) :
  (∀ x, x ∈ l → P1 x ↔ P2 x) → filter P1 l = filter P2 l.
Proof.
  induction l as [|x l IH]; intros Hl; [done|].
  rewrite !filter_cons, IH by (intros y Hy; apply Hl; by right).
  pose proof (Hl x (list_elem_of_here _ _)).
  destruct (decide (P1 x)), (decide (P2 x)); tauto.
Qed.

Lemma filter_differs_ne st q :
  refs_fresh st → q ∈ phrases st →
  filter (λ p, differs p (Some q)) (phrases st) = filter (λ p, p ≠ q) (phrases st).
Proof.
  intros Hf Hq. apply filter_ext_elem. intros p Hp. simpl.
  rewrite negb_True, Is_true_true, Nat.eqb_eq. split.
  - intros Hne ->. by apply Hne.
  - intros Hne Hpid. apply Hne. by eapply refs_fresh_pid_inj.
Qed.

(** With disjoint phrases, the phrase found for a position is the phrase
    the position is in. *)
Lemma getPhraseForIndex_unique ps q x :
  phrases_disjoint ps → q ∈ ps → x ∈ members q →
  getPhraseForIndex ps x = Some q.
Proof.
  intros Hd Hq Hx. destruct (getPhraseForIndex ps x) as [p|] eqn:Hf.
  - apply getPhraseForIndex_Some in Hf as [Hp Hxp].
    destruct (decide (p = q)) as [->|Hne]; [done|].
    by destruct (phrases_disjoint_elem ps p q x).
  - rewrite getPhraseForIndex_None in Hf. by destruct (Hf q Hq).
Qed.

(** ** Adjacency scanner *)

Lemma co_phrased_iff st a b :
  refs_fresh st → phrases_disjoint (phrases st) →
  co_phrased st a b ↔ ∃ r, r ∈ phrases st ∧ a ∈ members r ∧ b ∈ members r.
Proof.
  intros Hf Hd. split.
  - intros (p & q & [Hp Ha]%getPhraseForIndex_Some
                  & [Hq Hb]%getPhraseForIndex_Some & Hpq).
    assert (p = q) as -> by by eapply refs_fresh_pid_inj.
    by exists q.
  - intros (r & Hr & Ha & Hb). exists r, r.
    split_and!; [by apply getPhraseForIndex_unique..|done].
Qed.

Lemma elem_of_adjacent_at st wordTokens i a b :
  (a, b) ∈ adjacent_at st wordTokens i ↔
  ∃ current next,
    wordTokens !! i = Some current ∧ wordTokens !! (i + 1) = Some next ∧
    index current = a ∧ index next = b ∧
    a ∈ selectedIndices st ∧ b ∈ selectedIndices st ∧ ¬ co_phrased st a b.
Proof.
  unfold adjacent_at, co_phrased.
  destruct (wordTokens !! i) as [current|]; cycle 1.
  { split; [by intros ?%elem_of_nil|]. by intros (? & ? & ? & _). }
  destruct (wordTokens !! (i + 1)) as [next|]; cycle 1.
  { split; [by intros ?%elem_of_nil|]. by intros (? & ? & _ & ? & _). }
  destruct (set_has (index current) _) eqn:Hc; cycle 1.
  { split; [by intros ?%elem_of_nil|].
    intros (? & ? & [= <-] & [= <-] & <- & <- & Ha%set_has_true & _).
    congruence. }
  destruct (set_has (index next) _) eqn:Hn; cycle 1.
  { split; [by intros ?%elem_of_nil|].
    intros (? & ? & [= <-] & [= <-] & <- & <- & _ & Hb%set_has_true & _).
    congruence. }
  apply set_has_true in Hc, Hn. cbn [andb].
  assert (∀ l : list (nat * nat),
    ((a, b) ∈ (index current, index next) :: l ↔
       (index current = a ∧ index next = b) ∨ (a, b) ∈ l)) as Hhd.
  { intros l. rewrite elem_of_cons. split; intros [H|H]; try by right.
    - left. by injection H as -> ->.
    - left. by destruct H as [-> ->]. }
  destruct (getPhraseForIndex (phrases st) (index current)) as [p|] eqn:Ep,
           (getPhraseForIndex (phrases st) (index next)) as [q|] eqn:Eq.
  1: unfold same_phrase; destruct (Nat.eqb_spec (pid p) (pid q)) as [Hpq|Hpq].
  1: { split; [by intros ?%elem_of_nil|].
       intros (? & ? & [= <-] & [= <-] & <- & <- & _ & _ & Hno).
       destruct Hno. by exists p, q. }
  all: rewrite Hhd, elem_of_nil; split.
  all: try (intros [[<- <-]|[]]; exists current, next;
            split_and!; try done; intros (p' & q' & ? & ? & ?); congruence).
  all: intros (? & ? & [= <-] & [= <-] & <- & <- & _); by left.
Qed.

Lemma elem_of_findAdjacentPairs st a b :
  (a, b) ∈ findAdjacentPairs st ↔
  ∃ i current next,
    filter isWord (tokens st) !! i = Some current ∧
    filter isWord (tokens st) !! (i + 1) = Some next ∧
    index current = a ∧ index next = b ∧
    a ∈ selectedIndices st ∧ b ∈ selectedIndices st ∧ ¬ co_phrased st a b.
Proof.
  unfold findAdjacentPairs. rewrite list_elem_of_bind. split.
  - intros (i & Hi & _). apply elem_of_adjacent_at in Hi. by exists i.
  - intros (i & current & next & H1 & H2 & H). exists i. split.
    + apply elem_of_adjacent_at. by exists current, next.
    + apply elem_of_seq. apply lookup_lt_Some in H2. lia.
Qed.

Lemma adjacentPairs_selected st a b :
  (a, b) ∈ adjacentPairs st → a ∈ selectedIndices st ∧ b ∈ selectedIndices st.
Proof.
  unfold adjacentPairs. destruct (mode st); [by intros ?%elem_of_nil|].
  intros (i & c & n & _ & _ & _ & _ & Ha & Hb & _)%elem_of_findAdjacentPairs.
  done.
Qed.

(** ** Merging inside one phrase *)

Lemma reachable_start_picking article : reachable (start_picking article).
Proof.
  exact (reachable_step _ OpStart
           (reachable_step mounted (OpText article) reachable_mounted)).
Qed.

Lemma reachable_click st tokenIndex :
  reachable st → reachable (handleWordClick st tokenIndex).
Proof. intros H. exact (reachable_step st (OpClick tokenIndex) H). Qed.

Lemma reachable_merge st index1 index2 :
  reachable st → reachable (handleMerge st index1 index2).
Proof. intros H. exact (reachable_step st (OpMerge index1 index2) H). Qed.

Lemma fast_and_selected_reachable : reachable fast_and_selected.
Proof.
  unfold fast_and_selected.
  apply reachable_click, reachable_click, reachable_start_picking.
Qed.

Lemma fast_and_reachable : reachable fast_and.
Proof.
  unfold fast_and. apply reachable_merge, fast_and_selected_reachable.
Qed.

(** C1, as stated, fails: merging tokens 0 and 2 of the phrase [fast and]
    rebuilds the phrase with every member twice, and the exported phrase
    text changes with it. *)
Lemma handleMerge_same_phrase_changes :
  reachable fast_and ∧
  phrases fast_and = [{| pid := 0; members := [0; 2] |}] ∧
  phrases (handleMerge fast_and 0 2) = [{| pid := 1; members := [0; 0; 2; 2] |}] ∧
  members <$> phrases (handleMerge fast_and 0 2) ≠ members <$> phrases fast_and ∧
  exported_phrases <$> handleExportJson [] fast_and = Some [lit "fast and"] ∧
  exported_phrases <$> handleExportJson [] (handleMerge fast_and 0 2)
    = Some [lit "fast fast and and"].
Proof.
  split; [apply fast_and_reachable|]. by vm_compute.
Qed.

Lemma handleMerge_same_phrase_phrases st posA posB q :
  getPhraseForIndex (phrases st) posA = Some q →
  getPhraseForIndex (phrases st) posB = Some q →
  phrases (handleMerge st posA posB) =
    filter (λ p, differs p (Some q) && differs p (Some q)) (phrases st)
    ++ [{| pid := nextRef st;
           members := sort_indices (members q ++ members q) |}].
Proof. intros Ha Hb. unfold handleMerge. by rewrite Ha, Hb. Qed.

(** C1, amended. When [posA] and [posB] are in one phrase [q] of a state
    with disjoint phrases, the adjacency scanner does not report the pair,
    so the view never calls the merge; a call of [handleMerge] on it keeps
    the selection, keeps the phrases pairwise disjoint and keeps the same
    positions grouped together, although it rebuilds the array of [q]. *)
Theorem handleMerge_same_phrase st posA posB q :
  refs_fresh st → phrases_disjoint (phrases st) →
  q ∈ phrases st → posA ∈ members q → posB ∈ members q →
  ((posA, posB) ∉ findAdjacentPairs st)
  ∧ selectedIndices (handleMerge st posA posB) = selectedIndices st
  ∧ phrases_disjoint (phrases (handleMerge st posA posB))
  ∧ ∀ x y,
      (∃ p, p ∈ phrases (handleMerge st posA posB)
            ∧ x ∈ members p ∧ y ∈ members p)
      ↔ (∃ p, p ∈ phrases st ∧ x ∈ members p ∧ y ∈ members p).
Proof.
  intros Hf Hd Hq Ha Hb. split_and!.
  - intros (i & c & n & _ & _ & _ & _ & _ & _ & Hno)%elem_of_findAdjacentPairs.
    apply Hno, co_phrased_iff; [done..|]. by exists q.
  - done.
  - by apply handleMerge_disjoint.
  - intros x y.
    rewrite (handleMerge_same_phrase_phrases st posA posB q)
      by by apply getPhraseForIndex_unique.
    split.
    + intros (p & [[_ Hp]%list_elem_of_filter| ->%list_elem_of_singleton]%elem_of_app
                & Hx & Hy).
      * by exists p.
      * exists q. simpl in Hx, Hy.
        rewrite elem_of_sort_indices, elem_of_app in Hx, Hy.
        split_and!; [done|tauto..].
    + intros (p & Hp & Hx & Hy). destruct (decide (p = q)) as [->|Hne].
      * eexists. split; [apply elem_of_app; right; by apply list_elem_of_singleton|].
        simpl. rewrite !elem_of_sort_indices, !elem_of_app. tauto.
      * exists p. split; [|done]. apply elem_of_app. left.
        apply list_elem_of_filter. split; [|done].
        assert (pid p ≠ pid q) as Hpid.
        { intros Hpid. apply Hne. by eapply refs_fresh_pid_inj. }
        simpl. apply Nat.eqb_neq in Hpid. by rewrite Hpid.
Qed.

Lemma handleMerge_same_phrase_witness :
  ((0, 2) ∉ findAdjacentPairs fast_and)
  ∧ selectedIndices (handleMerge fast_and 0 2) = selectedIndices fast_and
  ∧ phrases_disjoint (phrases (handleMerge fast_and 0 2))
  ∧ ∀ x y,
      (∃ p, p ∈ phrases (handleMerge fast_and 0 2)
            ∧ x ∈ members p ∧ y ∈ members p)
      ↔ (∃ p, p ∈ phrases fast_and ∧ x ∈ members p ∧ y ∈ members p).
Proof.
  apply (handleMerge_same_phrase fast_and 0 2 {| pid := 0; members := [0; 2] |}).
  - split; vm_compute; repeat constructor. by intros ?%elem_of_nil.
  - change (phrases fast_and) with [{| pid := 0; members := [0; 2] |}].
    apply phrases_disjoint_cons. split; [by intros ? ? ?%elem_of_nil|].
    apply phrases_disjoint_nil.
  - vm_compute. left.
  - simpl. left.
  - simpl. right. left.
Defined.

(** ** Toggling a word *)

Lemma handleWordClick_word st tokenIndex t :
  tokens st !! tokenIndex = Some t → isWord t = true →
  handleWordClick st tokenIndex =
    match getPhraseForIndex (phrases st) tokenIndex with
    | Some phrase =>
        {| articleText := articleText st; mode := mode st;
           tokens := tokens st;
           selectedIndices :=
             foldl (λ newSet i, set_delete i newSet) (selectedIndices st)
                   (members phrase);
           phrases := filter (λ p, differs p (Some phrase)) (phrases st);
           hoveredConnector := hoveredConnector st;
           wordMeanings := wordMeanings st;
           nextRef := nextRef st |}
    | None =>
        {| articleText := articleText st; mode := mode st;
           tokens := tokens st;
           selectedIndices :=
             if set_has tokenIndex (selectedIndices st)
             then set_delete tokenIndex (selectedIndices st)
             else set_add tokenIndex (selectedIndices st);
           phrases := phrases st;
           hoveredConnector := hoveredConnector st;
           wordMeanings := wordMeanings st;
           nextRef := nextRef st |}
    end.
Proof. intros Ht Hw. unfold handleWordClick. by rewrite Ht, Hw. Qed.

(** C4. In a state with disjoint phrases where the word token at position
    [p] is a member of the phrase [q], [handleWordClick p] removes all the
    members of [q], and nothing else, from the selection, and removes [q],
    and no other phrase, from the phrase set. *)
Theorem handleWordClick_dissolves_phrase st p q t :
  refs_fresh st → phrases_disjoint (phrases st) →
  tokens st !! p = Some t → isWord t = true →
  q ∈ phrases st → p ∈ members q →
  (∀ x, x ∈ members q → x ∉ selectedIndices (handleWordClick st p))
  ∧ (∀ x, x ∈ selectedIndices (handleWordClick st p)
          ↔ x ∈ selectedIndices st ∧ x ∉ members q)
  ∧ (q ∉ phrases (handleWordClick st p))
  ∧ (∀ r, r ∈ phrases (handleWordClick st p) → pid r ≠ pid q)
  ∧ phrases (handleWordClick st p) = filter (λ r, r ≠ q) (phrases st).
Proof.
  intros Hf Hd Ht Hw Hq Hp.
  rewrite (handleWordClick_word st p t Ht Hw).
  rewrite (getPhraseForIndex_unique _ q p Hd Hq Hp). cbn [selectedIndices phrases].
  split_and!.
  - intros x Hx [_ Hno]%elem_of_delete_all. by apply Hno.
  - intros x. apply elem_of_delete_all.
  - intros [Hdiff _]%list_elem_of_filter. simpl in Hdiff.
    by rewrite Nat.eqb_refl in Hdiff.
  - intros r [Hdiff _]%list_elem_of_filter Hpid. simpl in Hdiff.
    rewrite Hpid, Nat.eqb_refl in Hdiff. done.
  - by apply filter_differs_ne.
Qed.

Lemma handleWordClick_dissolves_phrase_witness :
  (∀ x, x ∈ [0; 2] → x ∉ selectedIndices (handleWordClick fast_and 2))
  ∧ selectedIndices (handleWordClick fast_and 2) = []
  ∧ phrases (handleWordClick fast_and 2) = [].
Proof.
  pose proof (handleWordClick_dissolves_phrase fast_and 2
    {| pid := 0; members := [0; 2] |}
    {| text := lit "and"; index := 2; isWord := true; isNewline := false |})
    as H.
  destruct H as (H1 & _).
  - split; vm_compute; repeat constructor. by intros ?%elem_of_nil.
  - change (phrases fast_and) with [{| pid := 0; members := [0; 2] |}].
    apply phrases_disjoint_cons. split; [by intros ? ? ?%elem_of_nil|].
    apply phrases_disjoint_nil.
  - reflexivity.
  - reflexivity.
  - vm_compute. left.
  - simpl. right. left.
  - split; [exact H1|]. split; reflexivity.
Defined.

(** ** What the view keeps true *)

Lemma handleMerge_selectedIndices st index1 index2 :
  selectedIndices (handleMerge st index1 index2) = selectedIndices st.
Proof. done. Qed.

Lemma handleMerge_phrases_selected st index1 index2 :
  index1 ∈ selectedIndices st → index2 ∈ selectedIndices st →
  phrases_selected st → phrases_selected (handleMerge st index1 index2).
Proof.
  intros H1 H2 Hs p x. unfold handleMerge; cbn [phrases selectedIndices].
  intros [[_ Hp]%list_elem_of_filter| ->%list_elem_of_singleton]%elem_of_app.
  { by apply Hs. }
  cbn [members].
  destruct (getPhraseForIndex (phrases st) index1) as [p1|] eqn:E1,
           (getPhraseForIndex (phrases st) index2) as [p2|] eqn:E2;
    rewrite elem_of_sort_indices;
    repeat match goal with
    | H : getPhraseForIndex _ _ = Some _ |- _ =>
        apply getPhraseForIndex_Some in H as [? ?]
    end;
    rewrite ?elem_of_app, ?elem_of_cons, ?elem_of_nil;
    intros Hx; decompose [or] Hx; subst; try done. all: eapply Hs; [|eassumption]; eassumption.
Qed.

Lemma handleWordClick_phrases_selected st tokenIndex :
  phrases_disjoint (phrases st) →
  phrases_selected st → phrases_selected (handleWordClick st tokenIndex).
Proof.
  intros Hd Hs. unfold handleWordClick.
  destruct (tokens st !! tokenIndex) as [t|]; [|done].
  destruct (isWord t); simpl; [|done].
  destruct (getPhraseForIndex (phrases st) tokenIndex) as [q|] eqn:Hf.
  - apply getPhraseForIndex_Some in Hf as [Hq Hi].
    intros p x; cbn [phrases selectedIndices].
    intros [Hne%Is_true_eq_true%differs_Some_ne Hp]%list_elem_of_filter Hx.
    apply elem_of_delete_all. split; [by eapply Hs|].
    by eapply (phrases_disjoint_elem (phrases st) p q).
  - rewrite getPhraseForIndex_None in Hf.
    intros p x; cbn [phrases selectedIndices]. intros Hp Hx.
    destruct (set_has tokenIndex (selectedIndices st)).
    + apply elem_of_set_delete. split; [by eapply Hs|].
      intros ->. by eapply Hf.
    + apply elem_of_set_add. right. by eapply Hs.
Qed.

Lemma phrases_selected_nil st : phrases st = [] → phrases_selected st.
Proof. intros H p x. rewrite H. by intros ?%elem_of_nil. Qed.

Lemma apply_op_phrases_selected st op :
  offered st op → phrases_disjoint (phrases st) →
  phrases_selected st → phrases_selected (apply_op st op).
Proof.
  intros Ho Hd Hs. destruct op as [value| |tokenIndex|index1 index2|]; simpl.
  - done.
  - unfold handleStartPicking. destruct (negb _); simpl; [done|].
    by apply phrases_selected_nil.
  - by apply handleWordClick_phrases_selected.
  - apply adjacentPairs_selected in Ho as [H1 H2].
    by apply handleMerge_phrases_selected.
  - by apply phrases_selected_nil.
Qed.

Lemma reachable_disjoint st : reachable st → phrases_disjoint (phrases st).
Proof.
  induction 1 as [|st op _ IH]; [apply phrases_disjoint_nil|].
  by apply apply_op_disjoint.
Qed.

Lemma ui_phrases_selected st : ui_reachable st → phrases_selected st.
Proof.
  induction 1 as [|st op Hr IH Ho]; [by apply phrases_selected_nil|].
  apply apply_op_phrases_selected; [done| |done].
  by apply reachable_disjoint, ui_reachable_reachable.
Qed.

(** C9. In every state reached through the view (typing a text, start,
    toggle, reset, and merge of a pair that [adjacentPairs] reports), every
    member of a phrase is selected. *)
Theorem ui_reachable_phrases_selected (st : Picker) :
  ui_reachable st → ∀ p x, p ∈ phrases st → x ∈ members p → x ∈ selectedIndices st.
Proof.
  intros Hr p x Hp Hx. revert p x Hp Hx. change (phrases_selected st).
  by apply ui_phrases_selected.
Qed.

(** ** Definition cache *)

Lemma truthy_false (s : str) : truthy s = false ↔ s = [].
Proof.
  unfold truthy. rewrite negb_false_iff. apply bool_decide_eq_true.
Qed.

Lemma truthy_true (s : str) : truthy s = true ↔ s ≠ [].
Proof.
  unfold truthy. rewrite negb_true_iff. apply bool_decide_eq_false.
Qed.

Lemma fetchMeaning_None cache word :
  fetchMeaning cache word = None ↔
  normalizeWord word = [] ∨ is_Some (cache !! normalizeWord word).
Proof.
  unfold fetchMeaning.
  destruct (truthy (normalizeWord word)) eqn:Ht; simpl.
  - apply truthy_true in Ht. case_bool_decide; split; try done; [tauto|].
    intros [?|?]; done.
  - apply truthy_false in Ht. tauto.
Qed.

Lemma fetchMeaning_Some cache word normalized :
  fetchMeaning cache word = Some normalized ↔
  normalized = normalizeWord word ∧ normalized ≠ [] ∧ cache !! normalized = None.
Proof.
  unfold fetchMeaning.
  destruct (truthy (normalizeWord word)) eqn:Ht; simpl.
  - apply truthy_true in Ht. case_bool_decide as Hc; split.
    + done.
    + intros (-> & _ & Hn). rewrite Hn in Hc. by destruct Hc.
    + intros [= <-]. split_and!; [done..|].
      by apply eq_None_not_Some.
    + by intros (-> & _).
  - apply truthy_false in Ht. split; [done|]. by intros (-> & ? & _).
Qed.

(** C10. A call of [fetchMeaning] with a word whose normalized form is
    empty does nothing, whatever the cache holds: no record is stored and
    no request is sent. *)
Theorem fetchMeaning_empty_noop (st : Picker) (word : str) :
  normalizeWord word = [] →
  fetchMeaning (wordMeanings st) word = None
  ∧ callFetchMeaning st word = (st, []).
Proof.
  intros Hn.
  assert (fetchMeaning (wordMeanings st) word = None) as Hf.
  { apply fetchMeaning_None. by left. }
  split; [done|]. unfold callFetchMeaning. by rewrite Hf.
Qed.

Lemma fetchMeaning_empty_noop_witness :
  normalizeWord (lit "1984 - 2024!") = []
  ∧ callFetchMeaning fast_and (lit "1984 - 2024!") = (fast_and, []).
Proof.
  split; [reflexivity|].
  apply (fetchMeaning_empty_noop fast_and (lit "1984 - 2024!")).
  reflexivity.
Defined.

(** C5, as stated, fails: two calls in a row from one render both read the
    cache of that render, so with a key that has no record yet both send a
    request. *)
Lemma fetchMeaning_twice_in_a_row :
  normalizeWord (lit "Apple") = normalizeWord (lit "apple")
  ∧ wordMeanings (start_picking (lit "an Apple")) = ∅
  ∧ fetchMeaning (wordMeanings (start_picking (lit "an Apple"))) (lit "Apple")
    = Some (lit "apple")
  ∧ fetchMeaning (wordMeanings (start_picking (lit "an Apple"))) (lit "apple")
    = Some (lit "apple")
  ∧ (callFetchMeanings (start_picking (lit "an Apple"))
       [lit "Apple"; lit "apple"]).2
    = [lit "apple"; lit "apple"].
Proof. split_and!; reflexivity. Qed.

(** C5, amended. A call of [fetchMeaning] from a render whose cache holds a
    record, whatever the record, for the normalized form of the word does
    nothing.  So of two calls with words of the same normalized form, the
    second made from the render that follows the commit of the first, the
    second does nothing, and the two send one request when the form is not
    empty and the cache had no record for it. *)
Theorem fetchMeaning_cached_noop (st : Picker) (word1 word2 : str) :
  normalizeWord word1 = normalizeWord word2 →
  (∀ (cache : Cache) record,
     cache !! normalizeWord word2 = Some record →
     fetchMeaning cache word2 = None)
  ∧ (∀ st' record,
       wordMeanings st' !! normalizeWord word2 = Some record →
       callFetchMeaning st' word2 = (st', []))
  ∧ (callFetchMeaning (callFetchMeaning st word1).1 word2
     = ((callFetchMeaning st word1).1, []))
  ∧ (normalizeWord word1 ≠ [] →
     wordMeanings st !! normalizeWord word1 = None →
     (callFetchMeaning st word1).2
     ++ (callFetchMeaning (callFetchMeaning st word1).1 word2).2
     = [normalizeWord word1]).
Proof.
  intros Heq.
  assert (∀ (cache : Cache) record,
            cache !! normalizeWord word2 = Some record →
            fetchMeaning cache word2 = None) as Hcache.
  { intros cache record Hr. apply fetchMeaning_None. right. by eexists. }
  assert (∀ st' record,
            wordMeanings st' !! normalizeWord word2 = Some record →
            callFetchMeaning st' word2 = (st', [])) as Hhit.
  { intros st' record Hr. unfold callFetchMeaning.
    by rewrite (Hcache _ _ Hr). }
  assert (callFetchMeaning (callFetchMeaning st word1).1 word2
          = ((callFetchMeaning st word1).1, [])) as Hsecond.
  { destruct (fetchMeaning (wordMeanings st) word1) as [n|] eqn:Hf.
    - assert (callFetchMeaning st word1
              = (setMeaning n (loading_record n) st, [n])) as ->.
      { unfold callFetchMeaning. by rewrite Hf. }
      apply fetchMeaning_Some in Hf as (-> & _ & _).
      apply (Hhit _ (loading_record (normalizeWord word1))). simpl.
      by rewrite Heq, lookup_insert_eq.
    - assert (callFetchMeaning st word1 = (st, [])) as ->.
      { unfold callFetchMeaning. by rewrite Hf. }
      unfold callFetchMeaning. simpl.
      assert (fetchMeaning (wordMeanings st) word2 = None) as ->; [|done].
      apply fetchMeaning_None. rewrite <- Heq. by apply fetchMeaning_None. }
  split_and!; [done..|].
  intros Hne Hnone. rewrite Hsecond. simpl. rewrite app_nil_r.
  unfold callFetchMeaning.
  assert (fetchMeaning (wordMeanings st) word1 = Some (normalizeWord word1))
    as -> by by apply fetchMeaning_Some.
  done.
Qed.

Lemma fetchMeaning_cached_noop_witness :
  (callFetchMeaning (start_picking (lit "an Apple")) (lit "Apple")).2
  ++ (callFetchMeaning
        (callFetchMeaning (start_picking (lit "an Apple")) (lit "Apple")).1
        (lit "apple")).2
  = [lit "apple"]
  ∧ callFetchMeaning (fetchFailed (lit "apple") mounted) (lit "apple")
    = (fetchFailed (lit "apple") mounted, []).
Proof.
  destruct (fetchMeaning_cached_noop (start_picking (lit "an Apple"))
              (lit "Apple") (lit "apple"))
    as (_ & H2 & _ & H4); [reflexivity|].
  split.
  - apply H4; [by vm_compute|reflexivity].
  - eapply H2. apply lookup_insert_eq.
Defined.

(** ** Starting with a blank article *)

Lemma trim_start_blank s : forallb is_space s = true → trim_start s = [].
Proof.
  unfold trim_start. induction s as [|c s IH]; simpl; [done|].
  intros [Hc Hs]%andb_prop. rewrite Hc.
  destruct (span is_space s); simpl in *. by apply IH.
Qed.

Lemma trim_blank s : forallb is_space s = true → trim s = [].
Proof. intros H. unfold trim. by rewrite (trim_start_blank s H). Qed.

(** C8. With an article text that is empty or made of white space only,
    [handleStartPicking] changes nothing (it only shows the alert): the
    article is not tokenized, tokens, selection, phrases and cache are the
    ones before the call, and the mode does not become [picking]. *)
Theorem handleStartPicking_blank (st : Picker) :
  forallb is_space (articleText st) = true →
  handleStartPicking st = (st, [alert (lit "Please paste an article first!")])
  ∧ (mode st = input → mode (handleStartPicking st).1 = input).
Proof.
  intros Hb. unfold handleStartPicking.
  rewrite (trim_blank _ Hb). simpl. done.
Qed.

Lemma handleStartPicking_blank_witness :
  handleStartPicking (setArticleText (lit "  ") mounted)
  = (setArticleText (lit "  ") mounted,
     [alert (lit "Please paste an article first!")]).
Proof.
  apply (handleStartPicking_blank (setArticleText (lit "  ") mounted)).
  reflexivity.
Defined.

Lemma two_phrases_reachable : reachable two_phrases.
Proof.
  unfold two_phrases.
  apply reachable_merge, reachable_merge, reachable_click, reachable_click,
    fast_and_selected_reachable.
Qed.

Lemma reachable_phrases_disjoint_witness :
  phrases two_phrases
  = [{| pid := 0; members := [0; 2] |}; {| pid := 1; members := [4; 6] |}]
  ∧ (0 ∉ [4; 6]) ∧ (6 ∉ [0; 2]).
Proof.
  pose proof (reachable_phrases_disjoint two_phrases two_phrases_reachable) as H.
  split; [reflexivity|]. split.
  - apply (H 0 1 {| pid := 0; members := [0; 2] |}
             {| pid := 1; members := [4; 6] |} 0);
      [reflexivity|reflexivity|lia|left].
  - apply (H 1 0 {| pid := 1; members := [4; 6] |}
             {| pid := 0; members := [0; 2] |} 6);
      [reflexivity|reflexivity|lia|right; left].
Defined.

Lemma ui_start_picking article : ui_reachable (start_picking article).
Proof.
  exact (ui_step _ OpStart (ui_step mounted (OpText article) ui_mounted I) I).
Qed.

Lemma ui_click st tokenIndex :
  ui_reachable st → ui_reachable (handleWordClick st tokenIndex).
Proof. intros H. exact (ui_step st (OpClick tokenIndex) H I). Qed.

Lemma ui_merge st index1 index2 :
  ui_reachable st → (index1, index2) ∈ adjacentPairs st →
  ui_reachable (handleMerge st index1 index2).
Proof. intros H Ho. exact (ui_step st (OpMerge index1 index2) H Ho). Qed.

(** [fast_and] is also reached through the view. *)
Lemma fast_and_ui_reachable : ui_reachable fast_and.
Proof.
  unfold fast_and. apply ui_merge.
  - unfold fast_and_selected. apply ui_click, ui_click, ui_start_picking.
  - vm_compute. left.
Qed.

Lemma ui_reachable_phrases_selected_witness :
  0 ∈ selectedIndices fast_and ∧ 2 ∈ selectedIndices fast_and.
Proof.
  pose proof (ui_reachable_phrases_selected fast_and fast_and_ui_reachable
                {| pid := 0; members := [0; 2] |}) as H.
  split; apply H; vm_compute; repeat constructor.
Defined.

(** ** Export *)

Lemma lex_lt_irrefl s : ¬ lex_lt s s.
Proof.
  induction s as [|a s IH]; inversion 1; subst; [lia|done].
Qed.

Lemma lex_lt_trans s t u : lex_lt s t → lex_lt t u → lex_lt s u.
Proof.
  intros Hst. revert u. induction Hst as [c t|a b s t Hab|a s t Hst IH];
    intros u Htu; inversion Htu; subst.
  - constructor.
  - constructor.
  - constructor. lia.
  - by constructor.
  - by constructor.
  - constructor 3. by apply IH.
Qed.

Lemma str_leb_lex s t : str_leb s t = true ↔ s = t ∨ lex_lt s t.
Proof.
  revert t. induction s as [|a s IH]; intros [|b t]; simpl.
  - split; [by left|done].
  - split; [right; constructor|done].
  - split; [done|]. intros [?|H]; [done|inversion H].
  - destruct (N.ltb_spec a b) as [Hab|Hab].
    { split; [right; by constructor|done]. }
    destruct (N.ltb_spec b a) as [Hba|Hba].
    { split; [done|]. intros [[= -> ->]|H]; [lia|]. inversion H; subst; lia. }
    assert (a = b) as -> by lia. rewrite IH. split.
    + intros [->|H]; [by left|right; by constructor].
    + intros [[= ->]|H]; [by left|]. inversion H; subst; [lia|by right].
Qed.

Lemma str_leb_total s t : str_leb s t = true ∨ str_leb t s = true.
Proof.
  revert t. induction s as [|a s IH]; intros [|b t]; simpl; auto.
  destruct (N.ltb_spec a b), (N.ltb_spec b a); auto; lia.
Qed.

Lemma str_leb_trans s t u :
  str_leb s t = true → str_leb t u = true → str_leb s u = true.
Proof.
  rewrite !str_leb_lex. intros [->|Hst] [->|Htu]; auto.
  right. by eapply lex_lt_trans.
Qed.

Lemma StronglySorted_strict {A} (R : relation A) l :
  StronglySorted R l → NoDup l → StronglySorted (λ x y, R x y ∧ x ≠ y) l.
Proof.
  induction 1 as [|x l Hl IH Hx]; intros Hnd; [constructor|].
  apply NoDup_cons in Hnd as [Hxl Hnd]. constructor; [by apply IH|].
  rewrite Forall_forall in Hx |- *. intros y Hy. split; [by apply Hx|].
  by intros ->.
Qed.

Lemma StronglySorted_lex_NoDup ws : StronglySorted lex_lt ws → NoDup ws.
Proof.
  induction 1 as [|w ws _ IH Hw]; constructor; [|done].
  rewrite Forall_forall in Hw. intros Hin. by eapply lex_lt_irrefl, Hw.
Qed.

Lemma sort_strings_sorted l :
  NoDup l → StronglySorted lex_lt (sort_strings l).
Proof.
  intros Hnd. eapply StronglySorted_weaken; cycle 1.
  - apply StronglySorted_strict.
    + apply (array_sort_sorted str_leb); [apply str_leb_total|apply str_leb_trans].
    + unfold sort_strings. by rewrite array_sort_perm.
  - simpl. intros x y [[->|H]%str_leb_lex Hne]; done.
Qed.

(** A list is determined by being strictly sorted and by its elements. *)
Lemma sorted_words_unique ws1 ws2 :
  StronglySorted lex_lt ws1 → StronglySorted lex_lt ws2 →
  (∀ w, w ∈ ws1 ↔ w ∈ ws2) → ws1 = ws2.
Proof.
  intros H1 H2 Heq. apply (StronglySorted_unique_strong lex_lt); [|done..|].
  - intros x y _ _ Hxy Hyx. destruct (lex_lt_irrefl x). by eapply lex_lt_trans.
  - apply NoDup_Permutation; [by apply StronglySorted_lex_NoDup..|done].
Qed.

Lemma Forall2_elem_of_r {A B} (R : A → B → Prop) l k y :
  Forall2 R l k → y ∈ k ↔ ∃ x, x ∈ l ∧ R x y ∧ ∃ i, l !! i = Some x ∧ k !! i = Some y.
Proof.
  intros HF. split.
  - intros [i Hi]%list_elem_of_lookup.
    destruct (Forall2_lookup_r _ _ _ _ _ HF Hi) as (x & Hx & HR).
    exists x. split_and!; [by eapply list_elem_of_lookup_2|done|by exists i].
  - intros (x & _ & _ & i & _ & Hi). by eapply list_elem_of_lookup_2.
Qed.

Lemma single_word_position_filter st idx :
  idx ∈ filter (λ idx, bool_decide (getPhraseForIndex (phrases st) idx = None))
               (selectedIndices st)
  ↔ single_word_position st idx.
Proof.
  rewrite list_elem_of_filter, bool_decide_spec, getPhraseForIndex_None.
  unfold single_word_position. tauto.
Qed.

(** The loop that collects the single words ends normally when every
    selected position has a token, and collects their normalized texts. *)
Lemma collectSingleWords_Some st :
  (∀ idx, idx ∈ selectedIndices st → is_Some (tokens st !! idx)) →
  ∃ singleWords, collectSingleWords st = Some singleWords ∧
    ∀ w, w ∈ singleWords ↔
         ∃ idx t, single_word_position st idx ∧ tokens st !! idx = Some t ∧
                  w = normalizeWord (text t).
Proof.
  intros Hsel. unfold collectSingleWords.
  set (l := filter _ (selectedIndices st)).
  set (f := λ idx, tokens st !! idx ≫= λ t, Some (normalizeWord (text t))).
  assert (is_Some (mapM f l)) as [singleWords Hm].
  { apply mapM_is_Some, Forall_forall. intros idx [_ Hi]%list_elem_of_filter.
    destruct (Hsel idx Hi) as [t Ht]. unfold f; simpl. rewrite Ht. by eexists. }
  exists singleWords. split; [done|]. intros w.
  apply mapM_Some in Hm. rewrite (Forall2_elem_of_r _ _ _ _ Hm). split.
  - intros (idx & Hidx%single_word_position_filter & Hf & _).
    unfold f in Hf. destruct (tokens st !! idx) as [t|] eqn:Ht; [|done].
    injection Hf as <-. by exists idx, t.
  - intros (idx & t & Hidx%single_word_position_filter & Ht & ->).
    destruct (proj1 (list_elem_of_lookup _ _) Hidx) as [i Hi].
    assert (f idx = Some (normalizeWord (text t))) as Hf.
    { unfold f. by rewrite Ht. }
    destruct (Forall2_lookup_l _ _ _ _ _ Hm Hi) as (w' & Hw' & Hfw).
    exists idx. split_and!; [done..|]. exists i. split; [done|]. congruence.
Qed.

Lemma handleExportJson_words_of now st :
  (∀ idx, idx ∈ selectedIndices st → is_Some (tokens st !! idx)) →
  ∃ doc, handleExportJson now st = Some doc ∧ is_words_of st (words doc).
Proof.
  intros Hsel. destruct (collectSingleWords_Some st Hsel) as (sw & Hsw & Hin).
  unfold handleExportJson. rewrite Hsw. simpl. eexists. split; [done|].
  destruct (set_of_array_spec sw) as [Hnd Hset]. split; simpl.
  - by apply sort_strings_sorted.
  - intros w. unfold sort_strings. rewrite elem_of_array_sort, Hset. apply Hin.
Qed.

(** Selected positions are positions of word tokens. *)
Lemma apply_op_selection_words st op :
  selection_words st → selection_words (apply_op st op).
Proof.
  intros Hs. destruct op as [value| |tokenIndex|index1 index2|]; simpl.
  - done.
  - unfold handleStartPicking. destruct (negb _); simpl; [done|].
    by intros x ?%elem_of_nil.
  - unfold handleWordClick.
    destruct (tokens st !! tokenIndex) as [t|] eqn:Ht; [|done].
    destruct (isWord t) eqn:Hw; simpl; [|done].
    destruct (getPhraseForIndex (phrases st) tokenIndex); intros x; simpl.
    + intros [Hx _]%elem_of_delete_all. by apply Hs.
    + destruct (set_has tokenIndex (selectedIndices st)).
      * intros [Hx _]%elem_of_set_delete. by apply Hs.
      * intros [->|Hx]%elem_of_set_add; [by exists t|by apply Hs].
  - done.
  - by intros x ?%elem_of_nil.
Qed.

Lemma reachable_selection_words st : reachable st → selection_words st.
Proof.
  induction 1 as [|st op _ IH]; [by intros x ?%elem_of_nil|].
  by apply apply_op_selection_words.
Qed.

(** C6. In every reachable state, and so in every picking state,
    [handleExportJson] produces a document whose [words] is the strictly
    sorted list of the normalized token texts of exactly the selected
    positions that no phrase covers, and the only such list: a position
    covered by a phrase contributes nothing, selected or not. *)
Theorem handleExportJson_words (now : str) (st : Picker) :
  reachable st →
  ∃ doc, handleExportJson now st = Some doc
         ∧ is_words_of st (words doc)
         ∧ ∀ ws, is_words_of st ws → ws = words doc.
Proof.
  intros Hr. destruct (handleExportJson_words_of now st) as (doc & Hdoc & Hw).
  { intros idx Hidx. destruct (reachable_selection_words st Hr idx Hidx) as (t & -> & _).
    by eexists. }
  exists doc. split_and!; [done..|].
  intros ws [Hs Hin]. destruct Hw as [Hs' Hin'].
  apply sorted_words_unique; [done..|]. intros w. by rewrite Hin, Hin'.
Qed.

Lemma handleExportJson_words_witness :
  ∃ doc, handleExportJson [] fast_and = Some doc
         ∧ is_words_of fast_and (words doc)
         ∧ ∀ ws, is_words_of fast_and ws → ws = words doc.
Proof. apply (handleExportJson_words [] fast_and), fast_and_reachable. Defined.

(** ** Neighbours in a filtered list *)

Section FilterAdjacent.
Context {A : Type} (P : A → bool).

Lemma filter_first l n :
  filter P l !! 0 = Some n →
  ∃ l2 l3, l = l2 ++ n :: l3 ∧ P n ∧ Forall (λ x, ¬ P x) l2.
Proof.
  induction l as [|x l IH]; [done|].
  rewrite filter_cons. destruct (decide (P x)) as [Hx|Hx].
  - intros [= <-]. exists [], l. by split_and!.
  - intros (l2 & l3 & -> & Hn & Hl2)%IH. exists (x :: l2), l3.
    split_and!; [done..|]. by constructor.
Qed.

Lemma filter_all_False l : Forall (λ x, ¬ P x) l → filter P l = [].
Proof.
  induction 1 as [|x l Hx _ IH]; [done|]. by rewrite filter_cons_False.
Qed.

(** Two elements follow each other in [filter P l] exactly when they are
    kept and everything between them in [l] is dropped. *)
Lemma filter_adjacent l i c n :
  filter P l !! i = Some c ∧ filter P l !! S i = Some n ↔
  ∃ l1 l2 l3, l = l1 ++ c :: l2 ++ n :: l3 ∧ P c ∧ P n
              ∧ Forall (λ x, ¬ P x) l2 ∧ length (filter P l1) = i.
Proof.
  split.
  - revert i. induction l as [|x l IH]; intros i; [by intros [? _]|].
    rewrite filter_cons. destruct (decide (P x)) as [Hx|Hx].
    + destruct i as [|i]; simpl.
      * intros [[= <-] (l2 & l3 & -> & Hn & Hl2)%filter_first].
        exists [], l2, l3. by split_and!.
      * intros (l1 & l2 & l3 & -> & Hc & Hn & Hl2 & Hlen)%IH.
        exists (x :: l1), l2, l3. split_and!; [done..|].
        rewrite filter_cons_True by done. simpl. by rewrite Hlen.
    + intros (l1 & l2 & l3 & -> & Hc & Hn & Hl2 & Hlen)%IH.
      exists (x :: l1), l2, l3. split_and!; [done..|].
      by rewrite filter_cons_False.
  - intros (l1 & l2 & l3 & -> & Hc & Hn & Hl2 & <-).
    rewrite filter_app, (filter_cons_True _ c), filter_app by done.
    rewrite (filter_all_False l2), (filter_cons_True _ n) by done. simpl.
    split.
    + by apply list_lookup_middle.
    + rewrite (cons_middle c), (assoc (++)).
      apply list_lookup_middle. rewrite length_app. simpl. lia.
Qed.
End FilterAdjacent.

Lemma consecutive_words_filter tokens a b :
  tokens_numbered tokens →
  (∃ i current next,
     filter isWord tokens !! i = Some current ∧
     filter isWord tokens !! (i + 1) = Some next ∧
     index current = a ∧ index next = b)
  ↔ consecutive_words tokens a b.
Proof.
  intros Hnum. split.
  - intros (i & c & n & Hc & Hn & <- & <-). rewrite Nat.add_1_r in Hn.
    destruct (proj1 (filter_adjacent isWord tokens i c n) (conj Hc Hn))
      as (l1 & l2 & l3 & Htok & Hwc & Hwn & Hl2 & _).
    assert (tokens !! length l1 = Some c) as Hlc.
    { rewrite Htok. by apply list_lookup_middle. }
    assert (tokens !! (length l1 + S (length l2)) = Some n) as Hln.
    { rewrite Htok, (cons_middle c), !(assoc (++)).
      apply list_lookup_middle. rewrite !length_app. simpl. lia. }
    rewrite (Hnum _ _ Hlc), (Hnum _ _ Hln). split_and!.
    + lia.
    + exists c. split; [done|]. by apply Is_true_true.
    + exists n. split; [done|]. by apply Is_true_true.
    + intros k t Hk. rewrite Htok.
      rewrite lookup_app_r by lia.
      rewrite lookup_cons_ne_0 by lia.
      rewrite lookup_app_l by lia. intros Hkt.
      rewrite Forall_forall in Hl2.
      apply not_true_is_false. intros Hw. eapply Hl2.
      * by eapply list_elem_of_lookup_2.
      * by apply Is_true_true.
  - intros (Hab & (ta & Hta & Hwa) & (tb & Htb & Hwb) & Hbetween).
    set (l1 := take a tokens).
    set (l2 := take (b - S a) (drop (S a) tokens)).
    set (l3 := drop (S b) tokens).
    assert (tokens = l1 ++ ta :: l2 ++ tb :: l3) as Htok.
    { rewrite <- (take_drop_middle tokens a ta Hta) at 1. do 2 f_equal.
      assert (drop (S a) tokens !! (b - S a) = Some tb) as Hd.
      { rewrite lookup_drop. by replace (S a + (b - S a)) with b by lia. }
      rewrite <- (take_drop_middle _ _ _ Hd). do 2 f_equal.
      rewrite drop_drop. f_equal. lia. }
    assert (Forall (λ t, ¬ isWord t) l2) as Hl2.
    { apply Forall_forall. intros t [j Hj]%list_elem_of_lookup.
      unfold l2 in Hj. apply lookup_take_Some in Hj as [Hj Hlt].
      rewrite lookup_drop in Hj.
      rewrite (Hbetween (S a + j) t) by (done || lia). by intros []. }
    destruct (proj2 (filter_adjacent isWord tokens
                       (length (filter isWord l1)) ta tb)) as [Hc Hn].
    { exists l1, l2, l3. split_and!; try done; by apply Is_true_true. }
    exists (length (filter isWord l1)), ta, tb.
    rewrite Nat.add_1_r. split_and!; [done..|by apply Hnum|by apply Hnum].
Qed.

Lemma reachable_tokens_numbered st : reachable st → tokens_numbered (tokens st).
Proof.
  induction 1 as [|st op _ IH]; [by intros i t|].
  destruct op as [value| |tokenIndex|index1 index2|]; simpl; try done.
  - unfold handleStartPicking. destruct (negb _); simpl; [done|].
    apply tokenize_numbered.
  - unfold handleWordClick. destruct (tokens st !! tokenIndex) as [t|]; [|done].
    destruct (isWord t); simpl; [|done].
    by destruct (getPhraseForIndex (phrases st) tokenIndex).
Qed.

Lemma findAdjacentPairs_consecutive st a b :
  refs_fresh st → phrases_disjoint (phrases st) → tokens_numbered (tokens st) →
  (a, b) ∈ findAdjacentPairs st ↔
  consecutive_words (tokens st) a b
  ∧ a ∈ selectedIndices st ∧ b ∈ selectedIndices st
  ∧ ¬ ∃ r, r ∈ phrases st ∧ a ∈ members r ∧ b ∈ members r.
Proof.
  intros Hf Hd Hnum.
  rewrite elem_of_findAdjacentPairs, <- (co_phrased_iff st a b Hf Hd).
  rewrite <- (consecutive_words_filter _ a b Hnum). split.
  - intros (i & c & n & H1 & H2 & H3 & H4 & H5 & H6 & H7).
    split_and!; [|done..]. by exists i, c, n.
  - intros ((i & c & n & H1 & H2 & H3 & H4) & H5 & H6 & H7). by exists i, c, n.
Qed.

(** C7. In every reachable state [findAdjacentPairs] reports the pair
    [(a, b)] exactly when the tokens at [a] and [b] are neighbours in the
    sequence of word tokens, both positions are selected, and no phrase
    holds both; with [fast] and [furious] selected and [and] not, it
    reports no pair. *)
Theorem findAdjacentPairs_spec :
  (∀ st a b, reachable st →
     ((a, b) ∈ findAdjacentPairs st ↔
      consecutive_words (tokens st) a b
      ∧ a ∈ selectedIndices st ∧ b ∈ selectedIndices st
      ∧ ¬ ∃ r, r ∈ phrases st ∧ a ∈ members r ∧ b ∈ members r))
  ∧ text <$> tokens fast_furious
    = [lit "fast"; lit " "; lit "and"; lit " "; lit "furious"; lit " ";
       lit "driving"]
  ∧ selectedIndices fast_furious = [0; 4]
  ∧ findAdjacentPairs fast_furious = [].
Proof.
  split; [|by vm_compute].
  intros st a b Hr. apply findAdjacentPairs_consecutive.
  - by apply reachable_refs_fresh.
  - by apply reachable_disjoint.
  - by apply reachable_tokens_numbered.
Qed.

Lemma findAdjacentPairs_spec_witness :
  consecutive_words (tokens fast_and_selected) 0 2
  ∧ 0 ∈ selectedIndices fast_and_selected ∧ 2 ∈ selectedIndices fast_and_selected
  ∧ ¬ ∃ r, r ∈ phrases fast_and_selected ∧ 0 ∈ members r ∧ 2 ∈ members r.
Proof.
  apply (proj1 findAdjacentPairs_spec fast_and_selected 0 2).
  - apply fast_and_selected_reachable.
  - vm_compute. left.
Defined.

(** ** The scenarios of the design document *)

Example export_fast_furious :
  handleExportJson [] fast_furious
  = Some {| exportedAt := []; words := [lit "fast"; lit "furious"];
            exported_phrases := [] |}.
Proof. reflexivity. Qed.

Example adjacent_fast_and : findAdjacentPairs fast_and_selected = [(0, 2)].
Proof. reflexivity. Qed.

Example export_fast_and :
  handleExportJson [] fast_and
  = Some {| exportedAt := []; words := [];
            exported_phrases := [lit "fast and"] |}.
Proof. reflexivity. Qed.

Example fetch_running :
  callFetchMeaning mounted (lit "Running!")
  = (setMeaning (lit "running") (loading_record (lit "running")) mounted,
     [lit "running"]).
Proof. reflexivity. Qed.

(** ** Phrase members are word tokens in the view *)

Lemma ui_reachable_phrase_word st q p :
  ui_reachable st → q ∈ phrases st → p ∈ members q →
  ∃ t, tokens st !! p = Some t ∧ isWord t = true.
Proof.
  intros Hr Hq Hp.
  apply (reachable_selection_words st (ui_reachable_reachable st Hr)).
  by eapply (ui_phrases_selected st Hr).
Qed.

(** ** Normalized words *)

Lemma in_range_spec lo hi c : in_range lo hi c = true ↔ (lo ≤ c ≤ hi)%N.
Proof.
  unfold in_range. rewrite andb_true_iff, !N.leb_le. done.
Qed.

Lemma in_range_false lo hi c : in_range lo hi c = false ↔ (c < lo ∨ hi < c)%N.
Proof.
  unfold in_range. rewrite andb_false_iff, !N.leb_gt. done.
Qed.

(** What [normalizeWord] keeps is a lower-case ASCII letter. *)
Lemma normalizeWord_lower word :
  Forall (λ c, in_range 97 122 c = true) (normalizeWord word).
Proof.
  apply Forall_forall. intros c. unfold normalizeWord, toLowerCase.
  rewrite list_elem_of_filter, list_elem_of_bind.
  intros [Hl (u & Hu & _)]. apply Is_true_true in Hl.
  unfold is_ascii_letter in Hl. apply orb_true_iff in Hl as [Hl|Hl]; [done|].
  apply in_range_spec in Hl. unfold lower_unit in Hu.
  destruct (in_range 65 90 u) eqn:Hup.
  { apply in_range_spec in Hup. apply list_elem_of_singleton in Hu as ->.
    apply in_range_spec. lia. }
  destruct (N.eqb_spec u 8490).
  { apply list_elem_of_singleton in Hu as ->. done. }
  destruct (N.eqb_spec u 304).
  { apply elem_of_cons in Hu as [->|Hu]; [done|].
    apply list_elem_of_singleton in Hu as ->. lia. }
  apply list_elem_of_singleton in Hu as ->.
  apply in_range_false in Hup. lia.
Qed.

Lemma normalizeWord_fixed word :
  Forall (λ c, in_range 97 122 c = true) word → normalizeWord word = word.
Proof.
  unfold normalizeWord, toLowerCase.
  induction 1 as [|c w Hc _ IH]; [done|].
  apply in_range_spec in Hc.
  assert (lower_unit c = [c]) as Hlow.
  { unfold lower_unit.
    assert (in_range 65 90 c = false) as -> by (apply in_range_false; lia).
    destruct (N.eqb_spec c 8490); [lia|]. destruct (N.eqb_spec c 304); [lia|].
    done. }
  cbn [mbind list_bind]. rewrite Hlow. cbn [app].
  change (filter is_ascii_letter (c :: w ≫= lower_unit) = c :: w).
  rewrite filter_cons_True.
  - f_equal. apply IH.
  - apply Is_true_true. unfold is_ascii_letter.
    assert (in_range 97 122 c = true) as -> by (apply in_range_spec; lia). done.
Qed.

Lemma normalizeWord_idemp word :
  normalizeWord (normalizeWord word) = normalizeWord word.
Proof. apply normalizeWord_fixed, normalizeWord_lower. Qed.

(** ** The floating panel's effect *)

Lemma panelStep_skip captured acc w :
  w = [] ∨ is_Some (captured !! w) → panelStep captured acc w = acc.
Proof.
  intros Hw. unfold panelStep. case_bool_decide as Hc; [done|].
  destruct Hw as [->|Hw]; [|done].
  assert (fetchMeaning captured [] = None) as ->; [|done].
  apply fetchMeaning_None. by left.
Qed.

Lemma panelStep_fetch captured acc w :
  normalizeWord w = w → w ≠ [] → captured !! w = None →
  panelStep captured acc w
  = (setMeaning w (loading_record w) acc.1, acc.2 ++ [w]).
Proof.
  intros Hn Hne Hc. unfold panelStep. rewrite Hc.
  rewrite bool_decide_eq_false_2 by by intros [? ?].
  assert (fetchMeaning captured w = Some w) as ->; [|done].
  apply fetchMeaning_Some. by rewrite Hn.
Qed.

Lemma panel_fold captured items acc :
  Forall (λ w, normalizeWord w = w) items → NoDup items →
  ∃ sent,
    (foldl (panelStep captured) acc items).2 = acc.2 ++ sent
    ∧ NoDup sent
    ∧ (∀ k : str, k ∈ sent ↔ k ∈ items ∧ k ≠ [] ∧ captured !! k = None)
    ∧ (∀ k : str, is_Some (wordMeanings (foldl (panelStep captured) acc items).1 !! k)
            ↔ is_Some (wordMeanings acc.1 !! k) ∨ k ∈ sent)
    ∧ same_view (foldl (panelStep captured) acc items).1 acc.1.
Proof.
  intros Hnorm Hnd. revert acc.
  induction items as [|w items IH]; intros acc.
  { exists []. simpl. split_and!.
    - by rewrite app_nil_r.
    - constructor.
    - intros k. split; [by intros ?%elem_of_nil|by intros [?%elem_of_nil _]].
    - intros k. split; [by left|]. by intros [?|?%elem_of_nil].
    - done. }
  apply Forall_cons in Hnorm as [Hw Hnorm].
  apply NoDup_cons in Hnd as [Hwi Hnd].
  specialize (IH Hnorm Hnd). cbn [foldl].
  assert (w = [] ∨ is_Some (captured !! w) →
          ∃ sent,
            (foldl (panelStep captured) (panelStep captured acc w) items).2
              = acc.2 ++ sent
            ∧ NoDup sent
            ∧ (∀ k : str, k ∈ sent ↔ k ∈ w :: items ∧ k ≠ [] ∧ captured !! k = None)
            ∧ (∀ k : str, is_Some (wordMeanings
                       (foldl (panelStep captured) (panelStep captured acc w)
                              items).1 !! k)
                    ↔ is_Some (wordMeanings acc.1 !! k) ∨ k ∈ sent)
            ∧ same_view
                (foldl (panelStep captured) (panelStep captured acc w) items).1
                acc.1) as Hskip.
  { intros Hs. rewrite (panelStep_skip captured acc w Hs).
    destruct (IH acc) as (sent & H1 & H2 & H3 & H4 & H5).
    exists sent. split_and!; try done.
    intros k. rewrite H3, elem_of_cons. split.
    - intros (? & ? & ?). split_and!; [by right|done..].
    - intros ([->|?] & Hk1 & Hk2); [|done].
      destruct Hs as [Hs|[? Hs]]; [by destruct Hk1|].
      by rewrite Hs in Hk2. }
  destruct (decide (w = [])) as [Hempty|Hne]; [apply Hskip; by left|].
  destruct (captured !! w) as [r|] eqn:Hc; [apply Hskip; right; by eexists|].
  clear Hskip.
  rewrite panelStep_fetch by done.
  destruct (IH (setMeaning w (loading_record w) acc.1, acc.2 ++ [w]))
    as (sent & H1 & H2 & H3 & H4 & H5).
  exists (w :: sent). split_and!.
  - rewrite H1. simpl. by rewrite <- (assoc (++)).
  - constructor; [|done]. rewrite H3. by intros [? _].
  - intros k. rewrite !elem_of_cons, H3. split.
    + intros [->|(? & ? & ?)]; split_and!; auto.
    + intros ([->|?] & ? & ?); auto.
  - intros k. rewrite H4, elem_of_cons. simpl.
    destruct (decide (k = w)) as [->|Hk].
    + rewrite lookup_insert_eq. split; [auto|]. intros _. left. by eexists.
    + rewrite lookup_insert_ne by done. split; intros [?|?]; auto.
      destruct H as [?|?]; [done|auto].
  - destruct H5 as (? & ? & ?). by split_and!.
Qed.

Lemma collectSingleWords_same_view a b :
  same_view a b → collectSingleWords a = collectSingleWords b.
Proof.
  intros (Ht & Hs & Hp). unfold collectSingleWords. by rewrite Ht, Hs, Hp.
Qed.

(** When every selected position has a token, [getSelectedWords] returns
    normalized words, each once. *)
Lemma getSelectedWords_Some st :
  (∀ idx, idx ∈ selectedIndices st → is_Some (tokens st !! idx)) →
  ∃ items, getSelectedWords st = Some items ∧ NoDup items
           ∧ Forall (λ w, normalizeWord w = w) items.
Proof.
  intros Hsel. destruct (collectSingleWords_Some st Hsel) as (sw & Hsw & Hin).
  unfold getSelectedWords. rewrite Hsw. simpl. eexists. split; [done|].
  destruct (set_of_array_spec sw) as [Hnd Hset]. split; [done|].
  apply Forall_forall. intros w [idx (t & _ & _ & ->)]%Hset%Hin.
  apply normalizeWord_idemp.
Qed.

(** X13. In a state where every selected position has a token, as in every
    state of the view, and whatever the cache holds, the panel's effect ends
    normally; it sends a request exactly for the selected single words that
    are not empty and have no record yet, one for each; after it the keys
    with a record are those that had one and those requested; and the
    effect that follows the next render sends nothing. *)
Theorem panelEffect_settles st :
  (∀ idx, idx ∈ selectedIndices st → is_Some (tokens st !! idx)) →
  ∃ items st' sent,
    getSelectedWords st = Some items
    ∧ panelEffect st = Some (st', sent)
    ∧ NoDup sent
    ∧ (∀ k : str, k ∈ sent ↔ k ∈ items ∧ k ≠ [] ∧ wordMeanings st !! k = None)
    ∧ (∀ k : str, is_Some (wordMeanings st' !! k)
                  ↔ is_Some (wordMeanings st !! k) ∨ k ∈ sent)
    ∧ panelEffect st' = Some (st', []).
Proof.
  intros Hsel.
  destruct (getSelectedWords_Some st Hsel) as (items & Hit & Hnd & Hn).
  destruct (panel_fold (wordMeanings st) items (st, []) Hn Hnd)
    as (sent & H1 & H2 & H3 & H4 & H5).
  destruct (foldl (panelStep (wordMeanings st)) (st, []) items)
    as [st' sent'] eqn:Hfold. simpl in *. subst sent'.
  exists items, st', sent. split_and!.
  - done.
  - unfold panelEffect. rewrite Hit. simpl. by rewrite Hfold.
  - done.
  - done.
  - done.
  - unfold panelEffect, getSelectedWords.
    rewrite (collectSingleWords_same_view st' st H5).
    fold (getSelectedWords st). rewrite Hit. simpl. f_equal.
    assert (∀ w, w ∈ items → w = [] ∨ is_Some (wordMeanings st' !! w)) as Hall.
    { intros w Hw. destruct (decide (w = [])) as [|Hne]; [by left|right].
      apply H4. destruct (wordMeanings st !! w) eqn:Hc; [left; by eexists|].
      right. by apply H3. }
    clear -Hall. generalize (st', @nil str) as acc.
    induction items as [|w items IH]; intros acc; [done|].
    cbn [foldl]. rewrite panelStep_skip by (apply Hall; left).
    apply IH. intros w' Hw'. apply Hall. by right.
Qed.

(** ** The shape of the token sequence *)

Lemma span_run p s : Forall (λ c, p c = true) (span p s).1.
Proof.
  induction s as [|c s IH]; simpl; [constructor|].
  destruct (p c) eqn:Hc; [|constructor].
  destruct (span p s) as [run rest]. simpl in *. by constructor.
Qed.

(** The white-space and punctuation classes have no code unit in common. *)
Lemma is_punct_not_space c : is_punct c = true → is_space c = false.
Proof.
  unfold is_punct, punctuation. intros Hc%bool_decide_eq_true.
  repeat (apply elem_of_cons in Hc as [->|Hc]; [reflexivity|]).
  by apply elem_of_nil in Hc.
Qed.

Lemma is_newline_space c : is_newline c = true → is_space c = true.
Proof. unfold is_newline. by intros ->%N.eqb_eq. Qed.

Lemma match_separator_text s m rest :
  match_separator s = Some (m, rest) → separator_text m.
Proof.
  destruct s as [|c s]; [done|]. unfold match_separator.
  destruct (is_newline c) eqn:Hn.
  { intros [= <- <-]. left. unfold is_newline in Hn. by apply N.eqb_eq in Hn as ->. }
  destruct (is_space c) eqn:Hs.
  { rewrite (span_cons _ _ _ Hs). intros [= <- <-]. right; left.
    exists c, (span is_space s).1. split_and!; [done..|].
    constructor; [done|apply span_run]. }
  destruct (is_punct c) eqn:Hp; [|done].
  rewrite (span_cons _ _ _ Hp). intros [= <- <-]. right; right.
  split; [done|]. constructor; [done|apply span_run].
Qed.

Lemma match_separator_None c s :
  match_separator (c :: s) = None → is_separator c = false.
Proof.
  unfold match_separator, is_separator.
  destruct (is_newline c); [done|]. destruct (is_space c) eqn:Hs.
  { by rewrite (span_cons _ _ _ Hs). }
  destruct (is_punct c) eqn:Hp; [|done]. by rewrite (span_cons _ _ _ Hp).
Qed.

Lemma split_loop_shape fuel cur s :
  length s ≤ fuel → piece_text cur → split_shape (split_loop fuel cur s).
Proof.
  revert cur s. induction fuel as [|fuel IH]; intros cur s Hlen Hcur.
  { destruct s; simpl in *; [by constructor|lia]. }
  destruct s as [|c s]; [by constructor|]. cbn [split_loop].
  destruct (match_separator (c :: s)) as [[m rest]|] eqn:Hm.
  - pose proof (match_separator_text _ _ _ Hm) as Hsep.
    apply match_separator_Some in Hm as (_ & _ & Hlt).
    constructor; [done..|]. apply IH; [simpl in *; lia|constructor].
  - apply IH; [simpl in *; lia|].
    apply Forall_app. split; [done|].
    constructor; [by eapply match_separator_None|constructor].
Qed.

Lemma split_shape_split article : split_shape (split article).
Proof. apply split_loop_shape; [done|constructor]. Qed.

Lemma is_ascii_letter_not_separator c :
  is_ascii_letter c = true → is_separator c = false.
Proof.
  unfold is_ascii_letter. intros Hc.
  assert ((97 ≤ c ≤ 122)%N ∨ (65 ≤ c ≤ 90)%N) as Hr.
  { apply orb_true_iff in Hc as [Hc|Hc]; apply in_range_spec in Hc; auto. }
  unfold is_separator. apply orb_false_iff. split.
  - unfold is_space.
    repeat (apply orb_false_iff; split);
      first [apply in_range_false; lia | apply N.eqb_neq; lia].
  - unfold is_punct, punctuation. apply bool_decide_eq_false. intros Hp.
    repeat (apply elem_of_cons in Hp as [->|Hp]; [lia|]).
    by apply elem_of_nil in Hp.
Qed.

Lemma separator_text_nonempty m : separator_text m → m ≠ [].
Proof. intros [->|[(c & m' & -> & _)|[? _]]]; done. Qed.

Lemma separator_text_separators m :
  separator_text m → Forall (λ c, is_separator c = true) m.
Proof.
  unfold is_separator. intros [->|[(c & m' & -> & _ & Hs)|[_ Hp]]].
  - by repeat constructor.
  - eapply Forall_impl; [exact Hs|]. intros x ->. done.
  - eapply Forall_impl; [exact Hp|]. intros x ->. apply orb_true_r.
Qed.

(** A separator match has no letter: it never makes a word token. *)
Lemma separator_text_not_word m :
  separator_text m → existsb is_ascii_letter m = false.
Proof.
  intros Hm%separator_text_separators. apply not_true_is_false.
  intros (c & Hc%list_elem_of_In & Hl)%existsb_exists.
  rewrite Forall_forall in Hm. specialize (Hm c Hc).
  apply is_ascii_letter_not_separator in Hl. congruence.
Qed.

Lemma piece_text_separator s : piece_text s → separator_text s → False.
Proof.
  intros Hp Hs. pose proof (separator_text_nonempty s Hs) as Hne.
  apply separator_text_separators in Hs.
  destruct s as [|c s]; [done|].
  apply Forall_cons in Hp as [Hp _]. apply Forall_cons in Hs as [Hs _].
  congruence.
Qed.

Lemma split_shape_each l :
  split_shape l → Forall (λ s, separator_text s ∨ piece_text s) l.
Proof.
  induction 1 as [cur Hc|cur m l Hc Hm _ IH].
  - constructor; [by right|constructor].
  - constructor; [by right|]. constructor; [by left|done].
Qed.

Lemma filter_truthy_cons (x : str) l :
  filter truthy (x :: l) = if truthy x then x :: filter truthy l else filter truthy l.
Proof.
  rewrite filter_cons. destruct (truthy x); by destruct (decide _).
Qed.

Lemma separated_cons_separator m l :
  separator_text m → separated l → separated (m :: l).
Proof. intros Hm Hl. destruct l as [|y l]; [done|]. split; [by left|done]. Qed.

Lemma split_shape_separated l : split_shape l → separated (filter truthy l).
Proof.
  induction 1 as [cur Hc|cur m l Hc Hm _ IH].
  { rewrite filter_truthy_cons. by destruct (truthy cur). }
  rewrite !filter_truthy_cons.
  assert (truthy m = true) as ->.
  { apply truthy_true. by apply separator_text_nonempty. }
  pose proof (separated_cons_separator m _ Hm IH) as Hml.
  destruct (truthy cur); [|done]. split; [by right|done].
Qed.

Lemma separated_lookup l i x y :
  separated l → l !! i = Some x → l !! S i = Some y →
  separator_text x ∨ separator_text y.
Proof.
  revert i. induction l as [|a l IH]; intros i Hs Hx Hy; [done|].
  destruct l as [|b l]; [done|]. destruct Hs as [Hab Hs].
  destruct i as [|i]; simpl in *; [by simplify_eq|].
  by eapply IH.
Qed.

Lemma tokenize_lookup article i t :
  tokenize article !! i = Some t ↔
  ∃ token, filter truthy (split article) !! i = Some token ∧ t = mkToken i token.
Proof.
  unfold tokenize. rewrite list_lookup_imap.
  destruct (filter truthy (split article) !! i) as [token|]; simpl.
  - split; [intros [= <-]; by exists token|by intros (? & [= <-] & ->)].
  - split; [done|by intros (? & ? & _)].
Qed.

Lemma raw_token_shape article token :
  token ∈ filter truthy (split article) →
  token ≠ [] ∧ (separator_text token ∨ piece_text token).
Proof.
  intros [Ht%Is_true_true%truthy_true Hin]%list_elem_of_filter.
  split; [done|].
  pose proof (split_shape_each _ (split_shape_split article)) as Hall.
  rewrite Forall_forall in Hall. by apply Hall.
Qed.

(** X1. [tokenize] emits no empty token and numbers the tokens 0, 1, 2, ...
    in the order of emission, whatever the text. *)
Theorem tokenize_numbered_nonempty (article : str) :
  index <$> tokenize article = seq 0 (length (tokenize article))
  ∧ Forall (λ t, text t ≠ []) (tokenize article).
Proof.
  split.
  - apply list_eq. intros i. rewrite list_lookup_fmap.
    destruct (tokenize article !! i) as [t|] eqn:Ht; simpl.
    + rewrite (tokenize_numbered article i t Ht).
      symmetry. apply lookup_seq. split; [done|]. by eapply lookup_lt_Some.
    + symmetry. apply lookup_seq_ge. by apply lookup_ge_None.
  - apply Forall_forall. intros t [i Hi]%list_elem_of_lookup.
    apply tokenize_lookup in Hi as (token & Hraw & ->). simpl.
    by apply (raw_token_shape article), list_elem_of_lookup_2 with i.
Qed.

(** X2. Every token is either one separator match (a newline alone, a run
    of white space not beginning with a newline, or a run of punctuation),
    and then it is not a word token, or a piece with no white space and no
    punctuation in it, and then it is not a newline token; so a word token
    holds no white space and no punctuation. *)
Theorem tokenize_token_shape (article : str) :
  Forall (λ t, (separator_text (text t) ∧ isWord t = false)
               ∨ (piece_text (text t) ∧ isNewline t = false))
         (tokenize article)
  ∧ Forall (λ t, isWord t = true → piece_text (text t)) (tokenize article).
Proof.
  assert (Forall (λ t, (separator_text (text t) ∧ isWord t = false)
                       ∨ (piece_text (text t) ∧ isNewline t = false))
                 (tokenize article)) as Hshape.
  { apply Forall_forall. intros t [i Hi]%list_elem_of_lookup.
    apply tokenize_lookup in Hi as (token & Hraw & ->). simpl.
    destruct (raw_token_shape article token) as [_ [Hs|Hp]];
      [by eapply list_elem_of_lookup_2|..].
    - left. split; [done|]. by apply separator_text_not_word.
    - right. split; [done|]. apply bool_decide_eq_false. intros ->.
      apply (piece_text_separator _ Hp). by left. }
  split; [done|].
  eapply Forall_impl; [exact Hshape|]. intros t [[_ Hw]|[Hp _]] Hword; [|done].
  congruence.
Qed.

(** X3. Of two neighbouring tokens at least one is a separator match, so
    two word tokens are never neighbours: there is a token that is not a
    word between them. *)
Theorem tokenize_no_adjacent_words (article : str) (i : nat) (t1 t2 : TokenInfo) :
  tokenize article !! i = Some t1 → tokenize article !! S i = Some t2 →
  (separator_text (text t1) ∨ separator_text (text t2))
  ∧ ¬ (isWord t1 = true ∧ isWord t2 = true).
Proof.
  intros (x & Hx & ->)%tokenize_lookup (y & Hy & ->)%tokenize_lookup. simpl.
  pose proof (separated_lookup _ i x y
                (split_shape_separated _ (split_shape_split article)) Hx Hy)
    as Hsep.
  split; [done|]. intros [Hw1 Hw2].
  destruct Hsep as [Hs|Hs]; apply separator_text_not_word in Hs; congruence.
Qed.

Lemma tokenize_no_adjacent_words_witness :
  (separator_text (lit "fast") ∨ separator_text (lit " "))
  ∧ ¬ (existsb is_ascii_letter (lit "fast") = true
       ∧ existsb is_ascii_letter (lit " ") = true).
Proof.
  apply (tokenize_no_adjacent_words (lit "fast and furious driving") 0
           (mkToken 0 (lit "fast")) (mkToken 1 (lit " "))); reflexivity.
Defined.

(** ** Normalized words, continued *)

(** X4. [normalizeWord] returns lower-case ASCII letters only, and
    normalizing a normalized word changes nothing: the cache key of a key is
    the key itself. *)
Theorem normalizeWord_canonical (word : str) :
  Forall (λ c, (97 ≤ c ≤ 122)%N) (normalizeWord word)
  ∧ normalizeWord (normalizeWord word) = normalizeWord word.
Proof.
  split.
  - eapply Forall_impl; [apply normalizeWord_lower|].
    intros c. apply in_range_spec.
  - apply normalizeWord_fixed, normalizeWord_lower.
Qed.

Lemma lower_unit_letter c :
  is_ascii_letter c = true → ∃ c', c' ∈ lower_unit c ∧ is_ascii_letter c' = true.
Proof.
  unfold is_ascii_letter, lower_unit. intros Hc.
  destruct (in_range 65 90 c) eqn:Hup.
  - exists (c + 32)%N. split; [left|]. apply in_range_spec in Hup.
    apply orb_true_iff. left. apply in_range_spec. lia.
  - rewrite orb_false_r in Hc. apply in_range_spec in Hc.
    destruct (N.eqb_spec c 8490); [lia|]. destruct (N.eqb_spec c 304); [lia|].
    exists c. split; [left|]. apply orb_true_iff. left. apply in_range_spec. lia.
Qed.

(** A text with an ASCII letter has a key. *)
Lemma normalizeWord_nonempty s :
  existsb is_ascii_letter s = true → normalizeWord s ≠ [].
Proof.
  intros (c & Hc%list_elem_of_In & Hl)%existsb_exists.
  destruct (lower_unit_letter c Hl) as (c' & Hc' & Hl').
  assert (c' ∈ normalizeWord s) as Hin; [|by intros Hnil; rewrite Hnil in Hin;
                                           apply elem_of_nil in Hin].
  unfold normalizeWord, toLowerCase. apply list_elem_of_filter.
  split; [by apply Is_true_true|]. apply list_elem_of_bind. by exists c.
Qed.

Lemma reachable_tokens_tokenized st : reachable st → tokens_tokenized st.
Proof.
  induction 1 as [|st op _ IH]; [by exists []|].
  destruct op as [value| |tokenIndex|index1 index2|]; simpl; try done.
  - unfold handleStartPicking. destruct (negb _); simpl; [done|].
    by eexists.
  - unfold handleWordClick, tokens_tokenized.
    destruct (tokens st !! tokenIndex) as [t|]; [|done].
    destruct (isWord t); simpl; [|done].
    by destruct (getPhraseForIndex (phrases st) tokenIndex).
  - by exists [].
Qed.

Lemma tokens_tokenized_word st idx t :
  tokens_tokenized st → tokens st !! idx = Some t →
  isWord t = existsb is_ascii_letter (text t).
Proof.
  intros [article Ha]. rewrite Ha.
  by intros (token & _ & ->)%tokenize_lookup.
Qed.

(** X5. In every reachable state the exported [words] are non-empty
    strings of lower-case ASCII letters. *)
Theorem handleExportJson_words_letters (now : str) (st : Picker) (doc : ExportDocument) :
  reachable st → handleExportJson now st = Some doc →
  Forall (λ w, w ≠ [] ∧ Forall (λ c, (97 ≤ c ≤ 122)%N) w) (words doc).
Proof.
  intros Hr Hdoc.
  pose proof (reachable_selection_words st Hr) as Hsel.
  destruct (handleExportJson_words_of now st) as (doc' & Hdoc' & _ & Hin).
  { intros idx Hidx. destruct (Hsel idx Hidx) as (t & -> & _). by eexists. }
  assert (doc' = doc) as -> by congruence.
  apply Forall_forall. intros w (idx & t & [Hidx _] & Ht & ->)%Hin. split.
  - apply normalizeWord_nonempty.
    rewrite <- (tokens_tokenized_word st idx t (reachable_tokens_tokenized st Hr) Ht).
    destruct (Hsel idx Hidx) as (t' & Ht' & Hw). congruence.
  - eapply Forall_impl; [apply normalizeWord_lower|].
    intros c. apply in_range_spec.
Qed.

Lemma handleExportJson_words_letters_witness :
  Forall (λ w, w ≠ [] ∧ Forall (λ c, (97 ≤ c ≤ 122)%N) w)
         [lit "fast"; lit "furious"].
Proof.
  apply (handleExportJson_words_letters [] fast_furious
           {| exportedAt := []; words := [lit "fast"; lit "furious"];
              exported_phrases := [] |}); [|reflexivity].
  unfold fast_furious.
  apply reachable_click, reachable_click, reachable_start_picking.
Defined.

(** ** Starting with an article that is not blank *)

Lemma trim_start_nil s : trim_start s = [] → forallb is_space s = true.
Proof.
  unfold trim_start. induction s as [|c s IH]; simpl; [done|].
  destruct (is_space c); [|done].
  destruct (span is_space s) as [run rest]. simpl in *. exact IH.
Qed.

Lemma trim_start_head s c r : trim_start s = c :: r → is_space c = false.
Proof.
  unfold trim_start. induction s as [|a s IH]; simpl; [done|].
  destruct (is_space a) eqn:Ha.
  - destruct (span is_space s) as [run rest]. simpl in *. exact IH.
  - simpl. by intros [= <- _].
Qed.

Lemma forallb_reverse {A} (f : A → bool) l :
  forallb f (reverse l) = forallb f l.
Proof.
  induction l as [|x l IH]; [done|].
  rewrite reverse_cons, forallb_app. simpl. rewrite IH. 
  destruct (f x), (forallb f l); done.
Qed.

Lemma trim_nil s : trim s = [] ↔ forallb is_space s = true.
Proof.
  split; [|apply trim_blank].
  unfold trim. intros Hr.
  assert (trim_start (reverse (trim_start s)) = []) as Ht.
  { by rewrite <- (reverse_involutive (trim_start _)), Hr. }
  apply trim_start_nil in Ht. rewrite forallb_reverse in Ht.
  destruct (trim_start s) as [|c r] eqn:Hs; [by apply trim_start_nil|].
  apply trim_start_head in Hs. simpl in Ht. by rewrite Hs in Ht.
Qed.

(** X6. With an article that has a code unit other than white space,
    [handleStartPicking] shows no alert and enters the picking mode with the
    tokens of the article, nothing selected, no phrase and an empty cache,
    whatever the state before. *)
Theorem handleStartPicking_accepts (st : Picker) :
  forallb is_space (articleText st) = false →
  handleStartPicking st
  = ({| articleText := articleText st; mode := picking;
        tokens := tokenize (articleText st);
        selectedIndices := []; phrases := [];
        hoveredConnector := hoveredConnector st;
        wordMeanings := ∅; nextRef := nextRef st |}, []).
Proof.
  intros Hb. unfold handleStartPicking.
  assert (truthy (trim (articleText st)) = true) as ->; [|done].
  apply truthy_true. rewrite trim_nil. by rewrite Hb.
Qed.

Lemma handleStartPicking_accepts_witness :
  mode (handleStartPicking (setArticleText (lit " a ") fast_and)).1 = picking
  ∧ phrases (handleStartPicking (setArticleText (lit " a ") fast_and)).1 = [].
Proof.
  rewrite (handleStartPicking_accepts (setArticleText (lit " a ") fast_and));
    [split; reflexivity|reflexivity].
Defined.

(** ** Selection *)

(** X7. In every state reached through the view, every selected position
    and every member of a phrase is the position of a word token. *)
Theorem ui_reachable_word_positions (st : Picker) :
  ui_reachable st →
  (∀ x, x ∈ selectedIndices st → ∃ t, tokens st !! x = Some t ∧ isWord t = true)
  ∧ (∀ q x, q ∈ phrases st → x ∈ members q →
            ∃ t, tokens st !! x = Some t ∧ isWord t = true).
Proof.
  intros Hr. split.
  - apply reachable_selection_words. by apply ui_reachable_reachable.
  - intros q x Hq Hx. by eapply ui_reachable_phrase_word.
Qed.

Lemma ui_reachable_word_positions_witness :
  (∃ t, tokens fast_and !! 2 = Some t ∧ isWord t = true).
Proof.
  destruct (ui_reachable_word_positions fast_and fast_and_ui_reachable)
    as [_ H]. apply (H {| pid := 0; members := [0; 2] |} 2).
  - vm_compute. left.
  - simpl. right. left.
Defined.

Lemma set_delete_snoc_fresh (p : nat) s :
  p ∉ s → set_delete p (s ++ [p]) = s.
Proof.
  intros Hp. unfold set_delete. rewrite filter_app.
  rewrite filter_cons_False, filter_nil, app_nil_r by (intros H; by apply H).
  induction s as [|x s IH]; [done|].
  apply not_elem_of_cons in Hp as [Hx Hp].
  rewrite filter_cons_True by done. f_equal. by apply IH.
Qed.

(** X8. For a word token that is in no phrase, a second click on it
    undoes the first: made in a state [st1] that has the tokens, selection
    and phrases the first click left (the cache may have changed in
    between, as the panel's effect changes it), it gives back the phrases
    and tokens and the same positions selected as before the first click,
    the very same selection when the token was not selected, and it leaves
    the cache of [st1] as it is. *)
Theorem handleWordClick_twice (st st1 : Picker) (p : nat) (t : TokenInfo) :
  tokens st !! p = Some t → isWord t = true →
  getPhraseForIndex (phrases st) p = None →
  same_view st1 (handleWordClick st p) →
  phrases (handleWordClick st1 p) = phrases st
  ∧ tokens (handleWordClick st1 p) = tokens st
  ∧ (∀ x, x ∈ selectedIndices (handleWordClick st1 p) ↔ x ∈ selectedIndices st)
  ∧ (p ∉ selectedIndices st →
     selectedIndices (handleWordClick st1 p) = selectedIndices st)
  ∧ wordMeanings (handleWordClick st1 p) = wordMeanings st1.
Proof.
  intros Ht Hw Hf (Htok & Hsel & Hphr).
  rewrite (handleWordClick_word st p t Ht Hw), Hf in Htok, Hsel, Hphr.
  cbn [tokens selectedIndices phrases] in Htok, Hsel, Hphr.
  rewrite (handleWordClick_word st1 p t) by (by rewrite ?Htok).
  rewrite Hphr, Hf. cbn [phrases tokens selectedIndices wordMeanings].
  rewrite Hsel, Htok.
  destruct (set_has p (selectedIndices st)) eqn:Hp.
  - apply set_has_true in Hp.
    assert (set_has p (set_delete p (selectedIndices st)) = false) as ->.
    { apply bool_decide_eq_false. rewrite elem_of_set_delete. by intros [_ ?]. }
    split_and!; [done..| |done|done].
    intros x. rewrite elem_of_set_add, elem_of_set_delete.
    destruct (decide (x = p)) as [->|]; tauto.
  - apply bool_decide_eq_false in Hp.
    assert (set_has p (set_add p (selectedIndices st)) = true) as ->.
    { apply set_has_true, elem_of_set_add. by left. }
    assert (set_delete p (set_add p (selectedIndices st)) = selectedIndices st)
      as Hback.
    { unfold set_add. rewrite bool_decide_eq_false_2 by done.
      by apply set_delete_snoc_fresh. }
    rewrite Hback. by split_and!.
Qed.

Lemma handleWordClick_twice_witness :
  selectedIndices
    (handleWordClick
       (setMeaning (lit "furious") (loading_record (lit "furious"))
          (handleWordClick fast_and 4)) 4)
  = selectedIndices fast_and.
Proof.
  destruct (handleWordClick_twice fast_and
              (setMeaning (lit "furious") (loading_record (lit "furious"))
                 (handleWordClick fast_and 4)) 4
              {| text := lit "furious"; index := 4; isWord := true;
                 isNewline := false |}) as (_ & _ & _ & H & _).
  - reflexivity.
  - reflexivity.
  - reflexivity.
  - by split_and!.
  - apply H. change (4 ∉ [0; 2]). intros Hin.
    repeat (apply elem_of_cons in Hin as [Hin|Hin]; [done|]).
    by apply elem_of_nil in Hin.
Defined.

(** ** What a merge does *)

Lemma handleMerge_new_phrase st a b :
  ∃ q, phrases (handleMerge st a b)
       = filter (λ p, differs p (getPhraseForIndex (phrases st) a)
                      && differs p (getPhraseForIndex (phrases st) b))
                (phrases st) ++ [q]
       ∧ pid q = nextRef st
       ∧ ∀ x, x ∈ members q ↔
              x = a ∨ x = b
              ∨ (∃ p, getPhraseForIndex (phrases st) a = Some p ∧ x ∈ members p)
              ∨ (∃ p, getPhraseForIndex (phrases st) b = Some p ∧ x ∈ members p).
Proof.
  unfold handleMerge. cbn [phrases]. eexists. split; [done|].
  split; [done|]. intros x. cbn [members].
  destruct (getPhraseForIndex (phrases st) a) as [p1|] eqn:E1,
           (getPhraseForIndex (phrases st) b) as [p2|] eqn:E2;
    rewrite elem_of_sort_indices, ?elem_of_app, ?elem_of_cons, ?elem_of_nil.
  - split.
    + intros [?|?]; [right; right; left|right; right; right]; by eexists.
    + apply getPhraseForIndex_Some in E1 as [_ ?], E2 as [_ ?].
      intros [->|[->|[(? & [= <-] & ?)|(? & [= <-] & ?)]]]; auto.
  - split.
    + intros [?|[->|?]]; [right; right; left; by eexists|auto|done].
    + apply getPhraseForIndex_Some in E1 as [_ ?].
      intros [->|[->|[(? & [= <-] & ?)|(? & ? & _)]]]; auto; done.
  - split.
    + intros [->|?]; [auto|right; right; right; by eexists].
    + apply getPhraseForIndex_Some in E2 as [_ ?].
      intros [->|[->|[(? & ? & _)|(? & [= <-] & ?)]]]; auto; done.
  - split.
    + intros [->|[->|?]]; auto; done.
    + intros [->|[->|[(? & ? & _)|(? & ? & _)]]]; auto; done.
Qed.

(** X9. In a state with disjoint phrases, after [handleMerge a b] the two
    positions are found in one and the same phrase, whose members are [a],
    [b] and the members of the phrases that held [a] or [b]; the positions
    covered by a phrase are those covered before and [a] and [b]; every
    phrase that held neither is still there; and the scanner does not
    report the pair any more. *)
Theorem handleMerge_joins (st : Picker) (a b : nat) :
  refs_fresh st → phrases_disjoint (phrases st) →
  (∃ q, getPhraseForIndex (phrases (handleMerge st a b)) a = Some q
        ∧ getPhraseForIndex (phrases (handleMerge st a b)) b = Some q
        ∧ ∀ x, x ∈ members q ↔
               x = a ∨ x = b
               ∨ ∃ p, p ∈ phrases st ∧ x ∈ members p
                      ∧ (a ∈ members p ∨ b ∈ members p))
  ∧ (∀ x, covered (handleMerge st a b) x ↔ covered st x ∨ x = a ∨ x = b)
  ∧ (∀ p, p ∈ phrases st → a ∉ members p → b ∉ members p →
          p ∈ phrases (handleMerge st a b))
  ∧ ((a, b) ∉ findAdjacentPairs (handleMerge st a b)).
Proof.
  intros Hf Hd.
  destruct (handleMerge_new_phrase st a b) as (q & Hphr & Hpid & Hq).
  pose proof (handleMerge_disjoint st a b Hd) as Hd'.
  assert (q ∈ phrases (handleMerge st a b)) as Hqin.
  { rewrite Hphr. apply elem_of_app. right. by apply list_elem_of_singleton. }
  assert (getPhraseForIndex (phrases (handleMerge st a b)) a = Some q) as Ha.
  { apply getPhraseForIndex_unique; [done..|]. apply Hq. auto. }
  assert (getPhraseForIndex (phrases (handleMerge st a b)) b = Some q) as Hb.
  { apply getPhraseForIndex_unique; [done..|]. apply Hq. auto. }
  assert (∀ x, x ∈ members q ↔
               x = a ∨ x = b
               ∨ ∃ p, p ∈ phrases st ∧ x ∈ members p
                      ∧ (a ∈ members p ∨ b ∈ members p)) as Hq'.
  { intros x. rewrite Hq. split.
    - intros [?|[?|[(p & [? ?]%getPhraseForIndex_Some & ?)
                   |(p & [? ?]%getPhraseForIndex_Some & ?)]]]; auto;
        right; right; exists p; auto.
    - intros [?|[?|(p & Hp & Hx & [Hap|Hbp])]]; auto; right; right.
      + left. exists p. split; [|done]. by apply getPhraseForIndex_unique.
      + right. exists p. split; [|done]. by apply getPhraseForIndex_unique. }
  assert (∀ p, p ∈ phrases st → a ∉ members p → b ∉ members p →
               p ∈ phrases (handleMerge st a b)) as Hkeep.
  { intros p Hp Hap Hbp. rewrite Hphr. apply elem_of_app. left.
    apply list_elem_of_filter. split; [|done].
    apply andb_prop_intro. split; apply Is_true_true.
    - destruct (getPhraseForIndex (phrases st) a) as [p1|] eqn:E1; [|done].
      apply getPhraseForIndex_Some in E1 as [Hp1 Ha1]. simpl.
      apply negb_true_iff, Nat.eqb_neq. intros Hpid'.
      by rewrite (refs_fresh_pid_inj st p p1 Hf Hp Hp1 Hpid') in Hap.
    - destruct (getPhraseForIndex (phrases st) b) as [p2|] eqn:E2; [|done].
      apply getPhraseForIndex_Some in E2 as [Hp2 Hb2]. simpl.
      apply negb_true_iff, Nat.eqb_neq. intros Hpid'.
      by rewrite (refs_fresh_pid_inj st p p2 Hf Hp Hp2 Hpid') in Hbp. }
  split_and!.
  - by exists q.
  - intros x. unfold covered. split.
    + intros (p & Hp & Hx). rewrite Hphr in Hp.
      apply elem_of_app in Hp as [[_ Hp]%list_elem_of_filter
                                 | ->%list_elem_of_singleton].
      * left. by exists p.
      * apply Hq' in Hx as [?|[?|(p & ? & ? & _)]]; auto. left. by exists p.
    + intros [(p & Hp & Hx)|[->| ->]].
      * destruct (decide (a ∈ members p ∨ b ∈ members p)) as [Hab|Hab].
        -- exists q. split; [done|]. apply Hq'. right; right. by exists p.
        -- exists p. split; [|done]. apply Hkeep; tauto.
      * exists q. split; [done|]. apply Hq'. auto.
      * exists q. split; [done|]. apply Hq'. auto.
  - done.
  - intros (i & c & n & _ & _ & _ & _ & _ & _ & Hno)%elem_of_findAdjacentPairs.
    apply Hno. by exists q, q.
Qed.

Lemma handleMerge_joins_witness :
  (∃ q, getPhraseForIndex (phrases (handleMerge fast_and 2 4)) 2 = Some q
        ∧ getPhraseForIndex (phrases (handleMerge fast_and 2 4)) 4 = Some q
        ∧ ∀ x, x ∈ members q ↔
               x = 2 ∨ x = 4
               ∨ ∃ p, p ∈ phrases fast_and ∧ x ∈ members p
                      ∧ (2 ∈ members p ∨ 4 ∈ members p))
  ∧ members <$> phrases (handleMerge fast_and 2 4) = [[0; 2; 4]].
Proof.
  destruct (handleMerge_joins fast_and 2 4) as (H & _).
  - apply reachable_refs_fresh, fast_and_reachable.
  - apply reachable_disjoint, fast_and_reachable.
  - split; [exact H|reflexivity].
Defined.

(** ** The shape of the phrases in the view *)

Lemma StronglySorted_lt_NoDup (l : list nat) : StronglySorted lt l → NoDup l.
Proof.
  induction 1 as [|x l _ IH Hx]; constructor; [|done].
  rewrite Forall_forall in Hx. intros Hin. specialize (Hx x Hin). lia.
Qed.

Lemma sort_indices_strict l : NoDup l → StronglySorted lt (sort_indices l).
Proof.
  intros Hnd. eapply StronglySorted_weaken; cycle 1.
  - apply StronglySorted_strict; [apply sort_indices_sorted|].
    unfold sort_indices. by rewrite array_sort_perm.
  - simpl. intros x y [? ?]. lia.
Qed.

Lemma length_sort_indices l : length (sort_indices l) = length l.
Proof. unfold sort_indices. by rewrite array_sort_perm. Qed.

Lemma handleMerge_ascending st a b :
  phrases_disjoint (phrases st) → phrases_ascending st →
  a ≠ b → ¬ co_phrased st a b →
  phrases_ascending (handleMerge st a b).
Proof.
  intros Hd Hasc Hab Hno p. unfold handleMerge; cbn [phrases].
  intros [[_ Hp]%list_elem_of_filter| ->%list_elem_of_singleton]%elem_of_app.
  { by apply Hasc. }
  cbn [members].
  destruct (getPhraseForIndex (phrases st) a) as [p1|] eqn:E1,
           (getPhraseForIndex (phrases st) b) as [p2|] eqn:E2;
    rewrite length_sort_indices.
  - pose proof E1 as [Hp1 Ha]%getPhraseForIndex_Some.
    pose proof E2 as [Hp2 Hb]%getPhraseForIndex_Some.
    destruct (Hasc p1 Hp1) as [Hs1 Hl1], (Hasc p2 Hp2) as [Hs2 Hl2].
    split; [|rewrite length_app; lia].
    apply sort_indices_strict, NoDup_app.
    split_and!; [by apply StronglySorted_lt_NoDup| |by apply StronglySorted_lt_NoDup].
    intros x Hx. eapply (phrases_disjoint_elem (phrases st) p1 p2); [done..| |done].
    intros ->. apply Hno. by exists p2, p2.
  - pose proof E1 as [Hp1 Ha]%getPhraseForIndex_Some.
    rewrite getPhraseForIndex_None in E2.
    destruct (Hasc p1 Hp1) as [Hs1 Hl1].
    split; [|rewrite length_app; simpl; lia].
    apply sort_indices_strict, NoDup_app.
    split_and!; [by apply StronglySorted_lt_NoDup| |apply NoDup_singleton].
    intros x Hx ->%list_elem_of_singleton. by apply (E2 p1).
  - pose proof E2 as [Hp2 Hb]%getPhraseForIndex_Some.
    rewrite getPhraseForIndex_None in E1.
    destruct (Hasc p2 Hp2) as [Hs2 Hl2].
    split; [|simpl; lia].
    apply sort_indices_strict, NoDup_cons.
    split; [by apply (E1 p2)|by apply StronglySorted_lt_NoDup].
  - split; [|simpl; lia].
    apply sort_indices_strict, NoDup_cons. split.
    + by intros ->%list_elem_of_singleton.
    + apply NoDup_singleton.
Qed.

Lemma adjacentPairs_picking st a b :
  (a, b) ∈ adjacentPairs st → mode st = picking ∧ (a, b) ∈ findAdjacentPairs st.
Proof.
  unfold adjacentPairs. destruct (mode st); [by intros ?%elem_of_nil|done].
Qed.

Lemma reachable_pair st a b :
  reachable st → (a, b) ∈ findAdjacentPairs st →
  consecutive_words (tokens st) a b
  ∧ a ∈ selectedIndices st ∧ b ∈ selectedIndices st ∧ ¬ co_phrased st a b.
Proof.
  intros Hr Hab.
  pose proof (reachable_refs_fresh st Hr) as Hf.
  pose proof (reachable_disjoint st Hr) as Hd.
  apply (findAdjacentPairs_consecutive st a b Hf Hd
           (reachable_tokens_numbered st Hr)) in Hab as (H1 & H2 & H3 & H4).
  split_and!; [done..|]. by rewrite (co_phrased_iff st a b Hf Hd).
Qed.

Lemma phrases_ascending_sublist st st' :
  sublist (phrases st') (phrases st) → phrases_ascending st → phrases_ascending st'.
Proof. intros Hsub Hasc p Hp. apply Hasc. by eapply elem_of_sublist. Qed.

Lemma ui_phrases_ascending st : ui_reachable st → phrases_ascending st.
Proof.
  induction 1 as [|st op Hr IH Ho]; [by intros p ?%elem_of_nil|].
  destruct op as [value| |tokenIndex|index1 index2|]; simpl.
  - done.
  - unfold handleStartPicking. destruct (negb _); simpl; [done|].
    by intros p ?%elem_of_nil.
  - eapply phrases_ascending_sublist; [apply handleWordClick_phrases_sublist|done].
  - simpl in Ho. apply adjacentPairs_picking in Ho as [_ Ho].
    pose proof (ui_reachable_reachable st Hr) as Hr'.
    destruct (reachable_pair st index1 index2 Hr' Ho) as ([Hlt _] & _ & _ & Hno).
    apply handleMerge_ascending; [by apply reachable_disjoint|done|lia|done].
  - by intros p ?%elem_of_nil.
Qed.

(** X10. In every state reached through the view, each phrase has at least
    two members and lists them in strictly ascending order, each once. *)
Theorem ui_reachable_phrases_ascending (st : Picker) (p : Phrase) :
  ui_reachable st → p ∈ phrases st →
  StronglySorted lt (members p) ∧ NoDup (members p) ∧ 2 ≤ length (members p).
Proof.
  intros Hr Hp. destruct (ui_phrases_ascending st Hr p Hp) as [Hs Hl].
  split_and!; [done| |done]. by apply StronglySorted_lt_NoDup.
Qed.

Lemma ui_reachable_phrases_ascending_witness :
  StronglySorted lt [0; 2] ∧ NoDup [0; 2] ∧ 2 ≤ length [0; 2].
Proof.
  apply (ui_reachable_phrases_ascending fast_and {| pid := 0; members := [0; 2] |}).
  - apply fast_and_ui_reachable.
  - vm_compute. left.
Defined.

(** ** The connector buttons *)

Lemma consecutive_words_enclosing tokens a b a' b' i :
  consecutive_words tokens a b → consecutive_words tokens a' b' →
  a < i < b → a' < i < b' → a = a' ∧ b = b'.
Proof.
  intros (_ & (ta & Hta & Hwa) & (tb & Htb & Hwb) & Hab)
         (_ & (ta' & Hta' & Hwa') & (tb' & Htb' & Hwb') & Hab') Hi Hi'.
  split.
  - destruct (Nat.lt_total a a') as [Hlt|[?|Hlt]]; [|done|].
    + specialize (Hab a' ta'). rewrite Hab in Hwa'; [done|lia|done].
    + specialize (Hab' a ta). rewrite Hab' in Hwa; [done|lia|done].
  - destruct (Nat.lt_total b b') as [Hlt|[?|Hlt]]; [|done|].
    + specialize (Hab' b tb). rewrite Hab' in Hwb; [done|lia|done].
    + specialize (Hab b' tb'). rewrite Hab in Hwb'; [done|lia|done].
Qed.

Lemma between_spec i a b : between i (a, b) = true ↔ a < i < b.
Proof.
  unfold between. simpl. rewrite andb_true_iff, !Nat.ltb_lt. done.
Qed.

(** X11. In a reachable state, some connector button calls [handleMerge]
    with the pair [(a, b)] exactly when the scanner reports the pair and a
    token strictly between the two positions is not a newline token; the
    button then sits on such a token.  Two selected words with nothing but
    newline tokens between them are reported but get no button. *)
Theorem connectorAt_iff (st : Picker) (a b : nat) :
  reachable st →
  (∀ i, connectorAt st i = Some (a, b) ↔
        (a, b) ∈ adjacentPairs st ∧ a < i < b
        ∧ ∃ t, tokens st !! i = Some t ∧ isNewline t = false)
  ∧ ((∃ i, connectorAt st i = Some (a, b)) ↔
     (a, b) ∈ adjacentPairs st
     ∧ ∃ i t, a < i < b ∧ tokens st !! i = Some t ∧ isNewline t = false).
Proof.
  intros Hr.
  assert (∀ i, connectorAt st i = Some (a, b) ↔
               (a, b) ∈ adjacentPairs st ∧ a < i < b
               ∧ ∃ t, tokens st !! i = Some t ∧ isNewline t = false) as Hat.
  { intros i. unfold connectorAt. split.
    - destruct (tokens st !! i) as [t|] eqn:Ht; [|done].
      destruct (isNewline t) eqn:Hn; [done|].
      destruct (isWord t); simpl; [done|].
      destruct (existsb _ _ && _); [|done].
      intros [Hin%list_elem_of_In Hb%between_spec]%find_some.
      split; [done|]. split; [done|]. by exists t.
    - intros (Hin & Hi & t & Ht & Hn). rewrite Ht, Hn.
      destruct (adjacentPairs_picking st a b Hin) as [_ Hpair].
      destruct (reachable_pair st a b Hr Hpair) as (Hcons & Ha & _ & _).
      assert (isWord t = false) as ->.
      { destruct Hcons as (_ & _ & _ & Hbetween). by apply (Hbetween i). }
      simpl.
      assert (existsb (between i) (adjacentPairs st) = true) as ->.
      { apply existsb_exists. exists (a, b).
        split; [by apply list_elem_of_In|by apply between_spec]. }
      assert ((0 <? length (selectedIndices st)) = true) as ->.
      { apply Nat.ltb_lt. destruct (selectedIndices st); [|simpl; lia].
        by apply elem_of_nil in Ha. }
      simpl. destruct (find (between i) (adjacentPairs st)) as [[a' b']|] eqn:Hfind.
      + apply find_some in Hfind as [Hin'%list_elem_of_In Hb'%between_spec].
        destruct (adjacentPairs_picking st a' b' Hin') as [_ Hpair'].
        destruct (reachable_pair st a' b' Hr Hpair') as (Hcons' & _).
        by destruct (consecutive_words_enclosing _ _ _ _ _ i Hcons' Hcons)
          as [-> ->].
      + apply list_elem_of_In in Hin.
        pose proof (find_none _ _ Hfind _ Hin) as Hnone.
        apply between_spec in Hi. congruence. }
  split; [done|]. split.
  - intros (i & (Hin & Hi & t & Ht & Hn)%Hat). split; [done|]. by exists i, t.
  - intros (Hin & i & t & Hi & Ht & Hn). exists i. apply Hat.
    split; [done|]. split; [done|]. by exists t.
Qed.

Lemma connectorAt_iff_witness :
  connectorAt fast_and_selected 1 = Some (0, 2).
Proof.
  destruct (connectorAt_iff fast_and_selected 0 2 fast_and_selected_reachable)
    as [H _].
  apply H. split_and!; [vm_compute; left|lia|lia|].
  eexists. split; reflexivity.
Defined.

(** X12. In a reachable state the two positions of a reported pair are at
    least two apart, and the token right after the first is not a word
    token: there is always a token between the two words. *)
Theorem findAdjacentPairs_gap (st : Picker) (a b : nat) :
  reachable st → (a, b) ∈ findAdjacentPairs st →
  S a < b ∧ ∃ t, tokens st !! S a = Some t ∧ isWord t = false.
Proof.
  intros Hr Hab.
  destruct (reachable_pair st a b Hr Hab)
    as ((Hlt & (ta & Hta & Hwa) & (tb & Htb & Hwb) & Hbetween) & _).
  destruct (reachable_tokens_tokenized st Hr) as [article Harticle].
  assert (S a ≠ b) as Hne.
  { intros <-. rewrite Harticle in Hta, Htb.
    apply tokenize_lookup in Hta as (x & Hx & ->).
    apply tokenize_lookup in Htb as (y & Hy & ->). simpl in *.
    destruct (separated_lookup _ a x y
                (split_shape_separated _ (split_shape_split article)) Hx Hy)
      as [Hs|Hs]; apply separator_text_not_word in Hs; congruence. }
  split; [lia|].
  destruct (tokens st !! S a) as [t|] eqn:Ht.
  - exists t. split; [done|]. apply (Hbetween (S a)); [lia|done].
  - apply lookup_ge_None in Ht. apply lookup_lt_Some in Htb. lia.
Qed.

Lemma findAdjacentPairs_gap_witness :
  1 < 2 ∧ ∃ t, tokens fast_and_selected !! 1 = Some t ∧ isWord t = false.
Proof.
  apply (findAdjacentPairs_gap fast_and_selected 0 2).
  - apply fast_and_selected_reachable.
  - vm_compute. left.
Defined.

Lemma panelEffect_settles_witness :
  (panelEffect (fetchFailed (lit "fast") fast_furious)
   = Some (setMeaning (lit "furious") (loading_record (lit "furious"))
             (fetchFailed (lit "fast") fast_furious),
           [lit "furious"]))
  ∧ ∃ items st' sent,
      getSelectedWords (fetchFailed (lit "fast") fast_furious) = Some items
      ∧ panelEffect (fetchFailed (lit "fast") fast_furious) = Some (st', sent)
      ∧ NoDup sent
      ∧ (∀ k : str, k ∈ sent ↔
           k ∈ items ∧ k ≠ []
           ∧ wordMeanings (fetchFailed (lit "fast") fast_furious) !! k = None)
      ∧ (∀ k : str, is_Some (wordMeanings st' !! k)
           ↔ is_Some (wordMeanings (fetchFailed (lit "fast") fast_furious) !! k)
             ∨ k ∈ sent)
      ∧ panelEffect st' = Some (st', []).
Proof.
  split; [by vm_compute|].
  apply (panelEffect_settles (fetchFailed (lit "fast") fast_furious)).
  intros idx Hidx.
  change (idx ∈ [0; 4]) in Hidx.
  apply elem_of_cons in Hidx as [->|Hidx]; [by eexists|].
  apply list_elem_of_singleton in Hidx as ->. by eexists.
Defined.

(** ** What the floating panel shows *)

(** X14. In every state reached through the view, the floating panel
    renders exactly when the selection is not empty, that is exactly when
    the export buttons are enabled. *)
Theorem panelShown_iff_selection (st : Picker) :
  ui_reachable st →
  panelShown st = Some (negb (length (selectedIndices st) =? 0)).
Proof.
  intros Hui. pose proof (ui_reachable_reachable st Hui) as Hr.
  pose proof (reachable_selection_words st Hr) as Hsel.
  destruct (collectSingleWords_Some st) as (sw & Hsw & Hin).
  { intros idx Hidx. destruct (Hsel idx Hidx) as (t & -> & _). by eexists. }
  unfold panelShown, getSelectedWords. rewrite Hsw. simpl.
  destruct (set_of_array_spec sw) as [_ Hset].
  destruct (selectedIndices st) as [|x sel] eqn:Hs.
  - assert (set_of_array sw = []) as ->.
    { destruct (set_of_array sw) as [|w l] eqn:Hl; [done|].
      assert (w ∈ sw) as Hw by (apply Hset; left).
      apply Hin in Hw as (idx & t & [Hidx _] & _).
      rewrite Hs in Hidx. by apply elem_of_nil in Hidx. }
    assert (phrases st = []) as Hp.
    { destruct (phrases st) as [|p ps] eqn:Hps; [done|].
      assert (p ∈ phrases st) as Hp by (rewrite Hps; left).
      destruct (ui_phrases_ascending st Hui p Hp) as [_ Hlen].
      destruct (members p) as [|y l] eqn:Hm; [simpl in Hlen; lia|].
      assert (y ∈ selectedIndices st) as Hy.
      { apply (ui_phrases_selected st Hui p y Hp). rewrite Hm. left. }
      rewrite Hs in Hy. by apply elem_of_nil in Hy. }
    unfold getPhraseTexts. by rewrite Hp.
  - simpl. f_equal. apply negb_true_iff, Nat.eqb_neq.
    rewrite length_app. unfold getPhraseTexts. rewrite length_fmap.
    destruct (phrases st) as [|p ps] eqn:Hps; [|simpl; lia].
    assert (x ∈ selectedIndices st) as Hx by (rewrite Hs; left).
    destruct (Hsel x Hx) as (t & Ht & _).
    assert (normalizeWord (text t) ∈ set_of_array sw) as Hw.
    { apply Hset, Hin. exists x, t. split_and!; [|done..].
      split; [done|]. rewrite Hps. by intros p' ?%elem_of_nil. }
    destruct (set_of_array sw); [by apply elem_of_nil in Hw|].
    simpl. lia.
Qed.

Lemma panelShown_iff_selection_witness :
  panelShown fast_and = Some true.
Proof. apply (panelShown_iff_selection fast_and), fast_and_ui_reachable. Defined.

(** ** Definition cache, continued *)

Lemma collectDefinitions_length meanings :
  length (collectDefinitions meanings) ≤ 3.
Proof. unfold collectDefinitions. rewrite length_take. lia. Qed.

(** X15. From a response [fetchMeaning] keeps at most three definitions,
    none of them empty, each one of the first two definitions of some
    meaning of the response. *)
Theorem collectDefinitions_bounds (meanings : list (list str)) :
  length (collectDefinitions meanings) ≤ 3
  ∧ ∀ d, d ∈ collectDefinitions meanings →
         d ≠ [] ∧ ∃ m i, m ∈ meanings ∧ i < 2 ∧ m !! i = Some d.
Proof.
  unfold collectDefinitions. split.
  - rewrite length_take. lia.
  - intros d Hd.
    pose proof (elem_of_sublist _ _ _ Hd (sublist_take _ _)) as Hd'.
    clear Hd. apply list_elem_of_bind in Hd' as (m & Hd & Hm).
    apply list_elem_of_filter in Hd as [Ht%Is_true_true%truthy_true Hd].
    split; [done|].
    apply list_elem_of_lookup in Hd as [i Hi].
    apply lookup_take_Some in Hi as [Hi Hlt]. by exists m, i.
Qed.

(** X16. The life of a cache record.  When a call of [fetchMeaning] sends a
    request for the key [k], the cache holds the loading record of [k]
    afterwards; when the request ends, by a response or by a failure, in
    whatever state [st1] the picker is by then (also after a reset), the
    record of [k] is not loading any more and holds at most three
    definitions, no other key has changed, and a further call for the word
    sends nothing: a failed request is not tried again. *)
Theorem fetchMeaning_lifecycle (st : Picker) (word k : str) :
  fetchMeaning (wordMeanings st) word = Some k →
  callFetchMeaning st word = (setMeaning k (loading_record k) st, [k])
  ∧ wordMeanings (callFetchMeaning st word).1 !! k = Some (loading_record k)
  ∧ ∀ st1 st2,
      (st2 = fetchFailed k st1 ∨ ∃ phon meanings, st2 = fetchResolved k phon meanings st1) →
      (∃ record, wordMeanings st2 !! k = Some record
                 ∧ loading record = false ∧ length (definitions record) ≤ 3)
      ∧ (∀ k', k' ≠ k → wordMeanings st2 !! k' = wordMeanings st1 !! k')
      ∧ callFetchMeaning st2 word = (st2, []).
Proof.
  intros Hf.
  assert (callFetchMeaning st word = (setMeaning k (loading_record k) st, [k]))
    as Hcall.
  { unfold callFetchMeaning. by rewrite Hf. }
  apply fetchMeaning_Some in Hf as (Hk & Hne & Hnone).
  split; [done|]. rewrite Hcall. simpl. split; [apply lookup_insert_eq|].
  intros st1 st2 Hst2.
  assert (∃ record, st2 = setMeaning k record st1 ∧ loading record = false
                    ∧ length (definitions record) ≤ 3) as (record & -> & Hl & Hd).
  { destruct Hst2 as [->|(phon & meanings & ->)].
    - eexists. split; [done|]. split; [done|]. simpl. lia.
    - eexists. split; [done|]. split; [done|]. simpl.
      apply collectDefinitions_length. }
  split_and!.
  - exists record. simpl. by rewrite lookup_insert_eq.
  - intros k' Hk'. simpl. by rewrite lookup_insert_ne.
  - unfold callFetchMeaning.
    assert (fetchMeaning (wordMeanings (setMeaning k record st1)) word = None)
      as ->; [|done].
    apply fetchMeaning_None. right. rewrite <- Hk. simpl.
    rewrite lookup_insert_eq. by eexists.
Qed.

Lemma fetchMeaning_lifecycle_witness :
  callFetchMeaning (fetchFailed (lit "apple")
                      (handleReset (callFetchMeaning mounted (lit "Apple")).1))
                   (lit "Apple")
  = (fetchFailed (lit "apple")
       (handleReset (callFetchMeaning mounted (lit "Apple")).1), []).
Proof.
  destruct (fetchMeaning_lifecycle mounted (lit "Apple") (lit "apple"))
    as (_ & _ & H); [reflexivity|].
  destruct (H (handleReset (callFetchMeaning mounted (lit "Apple")).1)
              (fetchFailed (lit "apple")
                 (handleReset (callFetchMeaning mounted (lit "Apple")).1)))
    as (_ & _ & Hdone); [by left|exact Hdone].
Defined.
